(** * mingus.midi.MidiTrack: a shallow embedding and its properties

    The Python 2 class [MidiTrack] of [mingus/midi/MidiTrack.py] turns notes,
    note containers, bars and tracks into the bytes of a MIDI track chunk.
    Its methods are embedded below as functions over an explicit object
    state; an exception leaves the object as it was when it was raised. *)

From Stdlib Require Import ZArith List Ascii Bool Lia.
Import ListNotations.
Open Scope Z_scope.

(** ** Bytes, exceptions and results *)

(** A Python 2 [str] used as binary data: a list of bytes, each a [Z]
    in [0, 256). *)
Definition bytes := list Z.

Definition is_byte (b : Z) : Prop := 0 <= b < 256.

(** The exception classes the module can raise. *)
Inductive exn : Type :=
| AssertionError      (* a failed [assert] *)
| TypeError           (* binascii.a2b_hex: odd length or non-hex digit *)
| ZeroDivisionError   (* division by zero *)
| StructError.        (* struct.pack: value not in 0..255 *)

Inductive result (A : Type) : Type :=
| Ok (a : A)
| Raise (e : exn).
Arguments Ok {A} a.
Arguments Raise {A} e.

Definition rbind {A B} (r : result A) (k : A -> result B) : result B :=
  match r with
  | Ok a => k a
  | Raise e => Raise e
  end.

Notation "x <~ r ;; k" := (rbind r (fun x => k))
  (at level 61, r at next level, right associativity).

(** [range(n)] *)
Definition range (n : Z) : list Z := map Z.of_nat (seq 0 (Z.to_nat n)).

(** ** The library functions the module calls *)

Module Py.

(** One lower-case hexadecimal digit, as ["%x"] prints it: the characters
    from code 48 (the digit 0) for 0..9 and from code 97 (the letter a)
    for 10..15. *)
Definition hex_digit (d : Z) : ascii :=
  ascii_of_nat (Z.to_nat (if d <? 10 then 48 + d else 87 + d)).

(** The hexadecimal digits of a non-negative number, least significant
    first; at least one digit. *)
Fixpoint hex_rev (fuel : nat) (n : Z) : list ascii :=
  match fuel with
  | O => []
  | S f =>
      if n <? 16 then [hex_digit n]
      else hex_digit (n mod 16) :: hex_rev f (n / 16)
  end.

Definition hex_abs (n : Z) : list ascii :=
  rev (hex_rev (S (Z.to_nat (Z.log2 n))) n).

Definition zero_pad (width : nat) (s : list ascii) : list ascii :=
  repeat "0"%char (width - length s) ++ s.

(** ["%0<width>x" % n]; [width = 0] is the plain ["%x"].  The sign of a
    negative number counts in the width. *)
Definition format_x (width : nat) (n : Z) : list ascii :=
  if n <? 0 then "-"%char :: zero_pad (width - 1) (hex_abs (- n))
  else zero_pad width (hex_abs n).

(** The value of a hexadecimal digit, either case, by character code. *)
Definition unhex (c : ascii) : option Z :=
  let code := Z.of_nat (nat_of_ascii c) in
  if (48 <=? code) && (code <=? 57) then Some (code - 48)
  else if (97 <=? code) && (code <=? 102) then Some (code - 87)
  else if (65 <=? code) && (code <=? 70) then Some (code - 55)
  else None.

(** [binascii.a2b_hex]: two hexadecimal digits per byte; an odd length or
    a character that is no hexadecimal digit raises [TypeError]. *)
Fixpoint a2b_hex (s : list ascii) : result bytes :=
  match s with
  | [] => Ok []
  | [_] => Raise TypeError
  | h :: l :: rest =>
      match unhex h, unhex l with
      | Some a, Some b =>
          match a2b_hex rest with
          | Ok bs => Ok (16 * a + b :: bs)
          | Raise e => Raise e
          end
      | _, _ => Raise TypeError
      end
  end.

(** [struct.pack('%sB' % len(l), *l)]: every value as one unsigned byte. *)
Definition pack_B (l : list Z) : result bytes :=
  if forallb (fun b => (0 <=? b) && (b <? 256)) l then Ok l
  else Raise StructError.

(** [int(log(x, 128))] for [x >= 1].  The source computes it in double
    precision, [log(x) / log(128)] truncated.  From 1 to 2097151 that
    double quotient truncates to the exact integer logarithm, which is
    what is embedded; the properties of encoded numbers below are stated
    for that range. *)
Definition int_log128 (x : Z) : Z := Z.log2 x / 7.

(** [int(round(num / den))] for [den <> 0]: Python 2 rounds halves away
    from zero. *)
Definition round_div (num den : Z) : Z :=
  Z.sgn num * Z.sgn den * ((2 * Z.abs num + Z.abs den) / (2 * Z.abs den)).

(** [l[i] = v] for [i] inside the list. *)
Fixpoint set_item (l : list Z) (i : nat) (v : Z) : list Z :=
  match l, i with
  | [], _ => []
  | _ :: t, O => v :: t
  | h :: t, S j => h :: set_item t j v
  end.

End Py.

(** ** The constants of [MidiEvents] *)

Module MidiEvents.

(** Modelled from the spec: [MidiEvents.py], which [MidiTrack.py] imports
    its constants from, is not among the sources.  The spec names the
    note-off code as one of the codes of the standard MIDI event-type
    table, where it is 8. *)
Definition NOTE_OFF : Z := 8.

(** Modelled from the spec: the note-on code of [MidiEvents.py]; the spec's
    event-packing example gives type 9 for a note-on. *)
Definition NOTE_ON : Z := 9.

(** Modelled from the spec: the controller-change code of [MidiEvents.py],
    11 in the standard MIDI event-type table. *)
Definition CONTROLLER : Z := 11.

(** Modelled from the spec: the program-change code of [MidiEvents.py],
    12 in the standard MIDI event-type table. *)
Definition PROGRAM_CHANGE : Z := 12.

(** Modelled from the spec: the bank-select controller number of
    [MidiEvents.py], 0 in the standard MIDI controller table. *)
Definition BANK_SELECT : Z := 0.

(** Modelled from the spec: the track-chunk tag of [MidiEvents.py], the
    four characters [MTrk]. *)
Definition TRACK_HEADER : bytes :=
  map (fun c => Z.of_nat (nat_of_ascii c)) ["M"; "T"; "r"; "k"]%char.

End MidiEvents.
Import MidiEvents.

(** ** The objects of [mingus.containers] the encoder reads *)

(** A [Note]: [int(note)] and, when [note.dynamics] has the key, its
    ['velocity']. *)
Record Note : Type := mkNote {
  note_int : Z;
  dynamics_velocity : option Z
}.

(** A [NoteContainer]: [len], iteration, [nc[0]] and [nc[1:]]. *)
Definition NoteContainer := list Note.

(** One entry [x] of a [Bar]: [x[0]] the position (not read), [x[1]] the
    note value (4 for a quarter note; whole-numbered values are embedded)
    and [x[2]] the notes or [None]. *)
Record Beat : Type := mkBeat {
  beat_pos : Z;
  beat_value : Z;
  beat_notes : option NoteContainer
}.

Definition Bar := list Beat.

(** A [Track]: its bars and [track.instrument.instrument_nr] when the
    instrument has that attribute. *)
Record Track : Type := mkTrack {
  instrument_nr : option Z;
  track_bars : list Bar
}.

(** ** The encoder object *)

Record MidiTrack : Type := mkMidiTrack {
  track_data : bytes;
  delta_time : bytes;
  delay : Z;
  bpm : Z
}.

Definition with_track_data (self : MidiTrack) (b : bytes) : MidiTrack :=
  mkMidiTrack b (delta_time self) (delay self) (bpm self).
Definition with_delta_time (self : MidiTrack) (b : bytes) : MidiTrack :=
  mkMidiTrack (track_data self) b (delay self) (bpm self).
Definition with_delay (self : MidiTrack) (d : Z) : MidiTrack :=
  mkMidiTrack (track_data self) (delta_time self) d (bpm self).
Definition with_bpm (self : MidiTrack) (b : Z) : MidiTrack :=
  mkMidiTrack (track_data self) (delta_time self) (delay self) b.

(** A method that may change the object and may raise: the outcome and the
    object as the method left it. *)
Definition M (A : Type) : Type := MidiTrack -> result A * MidiTrack.

Definition ret {A} (a : A) : M A := fun self => (Ok a, self).

Definition bind {A B} (m : M A) (k : A -> M B) : M B :=
  fun self =>
    match m self with
    | (Ok a, self') => k a self'
    | (Raise e, self') => (Raise e, self')
    end.

(** A method that only reads the object. *)
Definition lift {A} (r : MidiTrack -> result A) : M A :=
  fun self => (r self, self).

Definition modify (f : MidiTrack -> MidiTrack) : M unit :=
  fun self => (Ok tt, f self).

Notation "x <- m ;; k" := (bind m (fun x => k))
  (at level 61, m at next level, right associativity).
Notation "m >> k" := (bind m (fun _ => k))
  (at level 61, right associativity).

(** [for x in l: f(x)], and a list comprehension run for its effects. *)
Fixpoint for_each {A} (f : A -> M unit) (l : list A) : M unit :=
  match l with
  | [] => ret tt
  | x :: t => f x >> for_each f t
  end.

(** [self.track_data += r(self)] *)
Definition append_track_data (r : MidiTrack -> result bytes) : M unit :=
  b <- lift r ;;
  modify (fun self => with_track_data self (track_data self ++ b)).

(** The class attributes, which a new object reads until it assigns its
    own. *)
Definition class_attributes : MidiTrack := mkMidiTrack [] [0] 0 120.

Definition end_of_track : bytes := [0; 255; 47; 0].

Definition int_to_varbyte (value : Z) : result bytes :=
  let length := Py.int_log128 (Z.max value 1) + 1 in
  let bytes0 :=
    map (fun i => Z.land (Z.shiftr value (i * 7)) 127) (range length) in
  let bytes1 := rev bytes0 in
  let bytes2 :=
    fold_left (fun bs i => Py.set_item bs i (Z.lor (nth i bs 0) 128))
              (seq 0 (List.length bytes1 - 1)) bytes1 in
  Py.pack_B bytes2.

Definition midi_event (self : MidiTrack) (event_type channel param1 : Z)
    (param2 : option Z) : result bytes :=
  if negb ((event_type <? 128) && (event_type >=? 0)) then Raise AssertionError
  else if negb ((channel <? 16) && (channel >=? 0)) then Raise AssertionError
  else
    tc <~ Py.a2b_hex (Py.format_x 0 event_type ++ Py.format_x 0 channel) ;;
    params <~ match param2 with
              | None => Py.a2b_hex (Py.format_x 2 param1)
              | Some p2 =>
                  Py.a2b_hex (Py.format_x 2 param1 ++ Py.format_x 2 p2)
              end ;;
    Ok (delta_time self ++ tc ++ params).

Definition note_off (self : MidiTrack) (channel note velocity : Z) :=
  midi_event self NOTE_OFF channel note (Some velocity).

Definition note_on (self : MidiTrack) (channel note velocity : Z) :=
  midi_event self NOTE_ON channel note (Some velocity).

Definition controller_event (self : MidiTrack) (channel contr_nr contr_val : Z) :=
  midi_event self CONTROLLER channel contr_nr (Some contr_val).

Definition reset : M unit :=
  modify (fun self => with_track_data self []) >>
  modify (fun self => with_delta_time self [0]).

(** The argument of [set_deltatime]: an [int] (which the method encodes),
    or bytes already encoded (which it stores as they are). *)
Inductive delta_arg : Type :=
| DeltaInt (v : Z)
| DeltaBytes (b : bytes).

Definition set_deltatime (d : delta_arg) : M unit :=
  b <- match d with
       | DeltaInt v => lift (fun _ => int_to_varbyte v)
       | DeltaBytes b => ret b
       end ;;
  modify (fun self => with_delta_time self b).

Definition select_bank (self : MidiTrack) (channel bank : Z) :=
  controller_event self BANK_SELECT channel bank.

Definition program_change_event (self : MidiTrack) (channel instr : Z) :=
  midi_event self PROGRAM_CHANGE channel instr None.

Definition set_tempo_event (self : MidiTrack) (bpm : Z) : result bytes :=
  let ms_per_min := 60000000 in
  if bpm =? 0 then Raise ZeroDivisionError
  else
    mpqn <~ Py.a2b_hex (Py.format_x 6 (ms_per_min / bpm)) ;;
    Ok (delta_time self ++ [255; 81; 3] ++ mpqn).

Definition set_tempo (bpm0 : Z) : M unit :=
  modify (fun self => with_bpm self bpm0) >>
  append_track_data (fun self => set_tempo_event self (bpm self)).

(** [MidiTrack(start_bpm)] *)
Definition init (start_bpm : Z) : result unit * MidiTrack :=
  (modify (fun self => with_track_data self []) >> set_tempo start_bpm)
    class_attributes.

Definition note_velocity (note : Note) : Z :=
  match dynamics_velocity note with
  | Some v => v
  | None => 64
  end.

Definition play_Note (channel : Z) (note : Note) : M unit :=
  let velocity := note_velocity note in
  append_track_data
    (fun self => note_on self channel (note_int note + 12) velocity).

Definition play_NoteContainer (channel : Z) (notecontainer : NoteContainer)
  : M unit :=
  if (List.length notecontainer <=? 1)%nat then
    for_each (play_Note channel) notecontainer
  else
    match notecontainer with
    | first :: rest =>
        play_Note channel first >>
        set_deltatime (DeltaInt 0) >>
        for_each (play_Note channel) rest
    | [] => ret tt   (* not reached: the length is above 1 *)
    end.

Definition stop_Note (channel : Z) (note : Note) : M unit :=
  let velocity := note_velocity note in
  append_track_data
    (fun self => note_off self channel (note_int note + 12) velocity).

Definition stop_NoteContainer (channel : Z) (notecontainer : NoteContainer)
  : M unit :=
  if (List.length notecontainer <=? 1)%nat then
    for_each (stop_Note channel) notecontainer
  else
    match notecontainer with
    | first :: rest =>
        stop_Note channel first >>
        set_deltatime (DeltaInt 0) >>
        for_each (stop_Note channel) rest
    | [] => ret tt   (* not reached: the length is above 1 *)
    end.

(** [int(round((1.0 / value * 288)))] *)
Definition beat_tick (value : Z) : result Z :=
  if value =? 0 then Raise ZeroDivisionError
  else Ok (Py.round_div 288 value).

(** The body of the loop of [play_Bar]. *)
Definition play_Bar_beat (channel : Z) (x : Beat) : M unit :=
  tick <- lift (fun _ => beat_tick (beat_value x)) ;;
  match beat_notes x with
  | None => modify (fun self => with_delay self (delay self + tick))
  | Some notes =>
      if (List.length notes =? 0)%nat then
        modify (fun self => with_delay self (delay self + tick))
      else
        (d <- lift (fun self => Ok (delay self)) ;;
         set_deltatime (DeltaInt d)) >>
        modify (fun self => with_delay self 0) >>
        play_NoteContainer channel notes >>
        (b <- lift (fun _ => int_to_varbyte tick) ;;
         set_deltatime (DeltaBytes b)) >>
        stop_NoteContainer channel notes
  end.

Definition play_Bar (channel : Z) (bar : Bar) : M unit :=
  for_each (play_Bar_beat channel) bar.

Definition set_instrument (channel instr bank : Z) : M unit :=
  append_track_data (fun self => select_bank self channel bank) >>
  append_track_data (fun self => program_change_event self channel instr).

Definition play_Track (channel : Z) (track : Track) : M unit :=
  modify (fun self => with_delay self 0) >>
  match instrument_nr track with
  | Some nr => set_instrument channel nr 1
  | None => ret tt
  end >>
  for_each (play_Bar channel) (track_bars track).

Definition header (self : MidiTrack) : result bytes :=
  chunk_size <~ Py.a2b_hex
    (Py.format_x 8 (Z.of_nat (List.length (track_data self))
                    + Z.of_nat (List.length end_of_track))) ;;
  Ok (TRACK_HEADER ++ chunk_size).

Definition get_midi_data (self : MidiTrack) : result bytes :=
  h <~ header self ;;
  Ok (h ++ track_data self ++ end_of_track).

(** ** Definitions the statements use *)

(** *** Hexadecimal digits *)

(** The [k] hexadecimal digits of [n], least significant first. *)
Fixpoint digits16 (k : nat) (n : Z) : list Z :=
  match k with
  | O => []
  | S k' => n mod 16 :: digits16 k' (n / 16)
  end.

(** *** The variable-length quantity *)

(** The encoding as the spec words it, to compare [int_to_varbyte] with:
    the number of base-128 digits is [floor(log_128(max(v,1))) + 1]; the
    digits come most significant first; every digit but the last carries
    the continuation flag 128. *)
Definition vlq_digit_count (v : Z) : nat :=
  Z.to_nat (Z.log2 (Z.max v 1) / 7 + 1).

Definition encode_vlq (v : Z) : bytes :=
  map (fun i => (v / 128 ^ Z.of_nat i) mod 128 + 128)
      (rev (seq 1 (vlq_digit_count v - 1)))
  ++ [v mod 128].

(** The reader of a variable-length quantity: seven bits per byte, most
    significant first, until a byte without the continuation flag; it gives
    the number and the bytes after it. *)
Fixpoint decode_vlq_from (acc : Z) (bs : bytes) : option (Z * bytes) :=
  match bs with
  | [] => None
  | b :: rest =>
      let acc' := acc * 128 + Z.land b 127 in
      if Z.testbit b 7 then decode_vlq_from acc' rest else Some (acc', rest)
  end.

Definition decode_vlq (bs : bytes) : option (Z * bytes) :=
  decode_vlq_from 0 bs.

(** *** Events *)

Definition valid_channel (channel : Z) : Prop := 0 <= channel < 16.

(** A note whose pitch (after the shift by 12) and velocity each fit one
    byte. *)
Definition valid_note (note : Note) : Prop :=
  is_byte (note_int note + 12) /\ is_byte (note_velocity note).

(** The status byte: the event type in the high nibble, the channel in the
    low nibble. *)
Definition status_byte (event_type channel : Z) : Z :=
  16 * event_type + channel.

(** A note-on and a note-off event without their delta-time. *)
Definition note_on_bytes (channel : Z) (note : Note) : bytes :=
  [status_byte NOTE_ON channel; note_int note + 12; note_velocity note].

Definition note_off_bytes (channel : Z) (note : Note) : bytes :=
  [status_byte NOTE_OFF channel; note_int note + 12; note_velocity note].

(** *** Note groups and beats *)

(** The events of a note group: the first note after the pending
    delta-time, every further note after the delta-time 0. *)
Definition chord_bytes (ev : Note -> bytes) (pending : bytes)
    (notes : NoteContainer) : bytes :=
  match notes with
  | [] => []
  | first :: rest =>
      (pending ++ ev first) ++ concat (map (fun n => 0 :: ev n) rest)
  end.

(** The delta-time a note group leaves behind. *)
Definition chord_delta_after (pending : bytes) (notes : NoteContainer)
  : bytes :=
  match notes with
  | _ :: _ :: _ => [0]
  | _ => pending
  end.

(** The object after one sounding beat of [tick] ticks. *)
Definition after_sounding_beat (self : MidiTrack) (channel tick : Z)
    (notes : NoteContainer) : MidiTrack :=
  mkMidiTrack
    (track_data self
     ++ chord_bytes (note_on_bytes channel) (encode_vlq (delay self)) notes
     ++ chord_bytes (note_off_bytes channel) (encode_vlq tick) notes)
    (chord_delta_after (encode_vlq tick) notes)
    0
    (bpm self).

(** *** What an operation leaves of the buffer *)

(** The buffer of [s'] is the buffer of [s] with bytes added at its end. *)
Definition extends (s s' : MidiTrack) : Prop :=
  exists more, track_data s' = track_data s ++ more.

(** A method that, whatever it returns or raises, has only added bytes at
    the end of the buffer. *)
Definition appends_only {A} (m : M A) : Prop :=
  forall s, extends s (snd (m s)).

(** *** The chunk *)

(** The four bytes of a number, most significant first, and the number a
    byte string stands for when read that way. *)
Definition big_endian_4 (n : Z) : bytes :=
  [(n / 16777216) mod 256; (n / 65536) mod 256; (n / 256) mod 256;
   n mod 256].

Definition big_endian_value (bs : bytes) : Z :=
  fold_left (fun acc b => acc * 256 + b) bs 0.

(** *** Sequences of operations *)

(** The methods that change the object. *)
Inductive operation : Type :=
| Do_play_Note (channel : Z) (note : Note)
| Do_play_NoteContainer (channel : Z) (notes : NoteContainer)
| Do_play_Bar (channel : Z) (bar : Bar)
| Do_play_Track (channel : Z) (track : Track)
| Do_stop_Note (channel : Z) (note : Note)
| Do_stop_NoteContainer (channel : Z) (notes : NoteContainer)
| Do_set_instrument (channel instr bank : Z)
| Do_set_deltatime (d : delta_arg)
| Do_set_tempo (bpm0 : Z)
| Do_reset.

Definition run (o : operation) : M unit :=
  match o with
  | Do_play_Note channel note => play_Note channel note
  | Do_play_NoteContainer channel notes => play_NoteContainer channel notes
  | Do_play_Bar channel bar => play_Bar channel bar
  | Do_play_Track channel track => play_Track channel track
  | Do_stop_Note channel note => stop_Note channel note
  | Do_stop_NoteContainer channel notes => stop_NoteContainer channel notes
  | Do_set_instrument channel instr bank => set_instrument channel instr bank
  | Do_set_deltatime d => set_deltatime d
  | Do_set_tempo bpm0 => set_tempo bpm0
  | Do_reset => reset
  end.

(** The object after a sequence of calls; a caller may go on with the
    object after a call has raised. *)
Fixpoint run_all (ops : list operation) (s : MidiTrack) : MidiTrack :=
  match ops with
  | [] => s
  | o :: rest => run_all rest (snd (run o s))
  end.

(** The tempo event of 120 beats per minute. *)
Definition tempo_event_120 : bytes := [0; 255; 81; 3; 7; 161; 32].

Definition begins_with_tempo (s : MidiTrack) : Prop :=
  exists rest, track_data s = tempo_event_120 ++ rest.

(** A call that either succeeds or leaves the buffer as it found it. *)
Definition atomic_call {A} (m : M A) (s : MidiTrack) : Prop :=
  match m s with
  | (Ok _, _) => True
  | (Raise _, s') => track_data s' = track_data s
  end.

(** *** Reading a track back *)

(** An event of a track as a reader of the MIDI format sees it: a channel
    event (delta-time, status byte, one or two data bytes) or a meta event
    (delta-time, type, data). *)
Inductive track_event : Type :=
| Channel (delta status : Z) (data : bytes)
| Meta (delta type : Z) (data : bytes).

Definition event_delta (e : track_event) : Z :=
  match e with
  | Channel delta _ _ => delta
  | Meta delta _ _ => delta
  end.

(** The ticks a list of events spans. *)
Definition total_delta (evs : list track_event) : Z :=
  fold_right (fun e acc => event_delta e + acc) 0 evs.

(** The number of data bytes after a channel status byte: two for note-off,
    note-on, aftertouch, controller and pitch bend (high nibble 8, 9, 10,
    11, 14), one for program change and channel pressure (12, 13). *)
Definition channel_data_length (status : Z) : option nat :=
  let high := status / 16 in
  if (8 <=? high) && (high <=? 11) || (high =? 14) then Some 2%nat
  else if (high =? 12) || (high =? 13) then Some 1%nat
  else None.

(** Where the reader is inside the byte stream. *)
Inductive reader : Type :=
| AtEvent
| InDelta (acc : Z)
| AtStatus (delta : Z)
| InChannel (delta status : Z) (need : nat) (got : bytes)
| AtMetaType (delta : Z)
| AtMetaLength (delta type : Z)
| InMeta (delta type : Z) (need : nat) (got : bytes).

(** The reader, byte by byte.  A delta-time is a variable-length quantity;
    a data byte of a channel event has its high bit clear; the length of a
    meta event is read as one byte below 128; running status and
    system-exclusive events are refused.  The input has to end between two
    events. *)
Fixpoint read_from (st : reader) (bs : bytes) : option (list track_event) :=
  match bs with
  | [] => match st with AtEvent => Some [] | _ => None end
  | b :: rest =>
      match st with
      | AtEvent =>
          if Z.testbit b 7 then read_from (InDelta (Z.land b 127)) rest
          else read_from (AtStatus (Z.land b 127)) rest
      | InDelta acc =>
          let acc' := acc * 128 + Z.land b 127 in
          if Z.testbit b 7 then read_from (InDelta acc') rest
          else read_from (AtStatus acc') rest
      | AtStatus delta =>
          if b =? 255 then read_from (AtMetaType delta) rest
          else
            match channel_data_length b with
            | Some need => read_from (InChannel delta b need []) rest
            | None => None
            end
      | InChannel delta status need got =>
          if Z.testbit b 7 then None
          else
            match need with
            | O => None
            | S O =>
                option_map (cons (Channel delta status (got ++ [b])))
                           (read_from AtEvent rest)
            | S need' =>
                read_from (InChannel delta status need' (got ++ [b])) rest
            end
      | AtMetaType delta => read_from (AtMetaLength delta b) rest
      | AtMetaLength delta type =>
          if Z.testbit b 7 then None
          else
            match Z.to_nat b with
            | O => option_map (cons (Meta delta type []))
                              (read_from AtEvent rest)
            | S need' => read_from (InMeta delta type (S need') []) rest
            end
      | InMeta delta type need got =>
          match need with
          | O => None
          | S O =>
              option_map (cons (Meta delta type (got ++ [b])))
                         (read_from AtEvent rest)
          | S need' => read_from (InMeta delta type need' (got ++ [b])) rest
          end
      end
  end.

(** A status byte followed by two data bytes. *)
Definition two_data_status (status : Z) : Prop :=
  channel_data_length status = Some 2%nat /\ (status =? 255) = false.

Definition read_track (bs : bytes) : option (list track_event) :=
  read_from AtEvent bs.

(** A note whose pitch (after the shift by 12) and velocity are MIDI data
    bytes, 0..127. *)
Definition midi_note (note : Note) : Prop :=
  0 <= note_int note + 12 < 128 /\ 0 <= note_velocity note < 128.

(** A beat with a positive note value and MIDI notes. *)
Definition midi_beat (x : Beat) : Prop :=
  0 < beat_value x
  /\ match beat_notes x with
     | Some notes => Forall midi_note notes
     | None => True
     end.

(** The events of a note group: the first after [delta], the others after
    0. *)
Definition chord_events (status delta : Z) (notes : NoteContainer)
  : list track_event :=
  match notes with
  | [] => []
  | first :: rest =>
      Channel delta status [note_int first + 12; note_velocity first]
      :: map (fun n => Channel 0 status [note_int n + 12; note_velocity n])
             rest
  end.

(** The events a bar stands for when [delay] ticks of rest are pending, and
    the rest pending after it. *)
Fixpoint bar_events (channel delay : Z) (bar : Bar)
  : list track_event * Z :=
  match bar with
  | [] => ([], delay)
  | x :: rest =>
      let tick := Py.round_div 288 (beat_value x) in
      match beat_notes x with
      | Some ((_ :: _) as notes) =>
          let (evs, d) := bar_events channel 0 rest in
          (chord_events (status_byte NOTE_ON channel) delay notes
           ++ chord_events (status_byte NOTE_OFF channel) tick notes
           ++ evs, d)
      | _ => bar_events channel (delay + tick) rest
      end
  end.

(** The ticks of all the beats of a bar. *)
Definition bar_ticks (bar : Bar) : Z :=
  fold_right (fun x acc => Py.round_div 288 (beat_value x) + acc) 0 bar.

(** The three bytes of a number, most significant first. *)
Definition big_endian_3 (n : Z) : bytes :=
  [(n / 65536) mod 256; (n / 256) mod 256; n mod 256].

(** * Lemmas *)

(** ** The library functions *)

(** A check that holds on all of [range n] holds at each number below [n]. *)
Lemma forallb_range (f : Z -> bool) (n : Z) :
  forallb f (range n) = true -> forall x, 0 <= x < n -> f x = true.
Proof.
  unfold range. intros H x Hx. rewrite forallb_forall in H. apply H.
  apply in_map_iff. exists (Z.to_nat x). split; [lia|].
  apply in_seq. lia.
Qed.

Lemma rbind_Ok {A B} (a : A) (k : A -> result B) : rbind (Ok a) k = k a.
Proof. reflexivity. Qed.

Module PyFacts.
Import Py.

Lemma unhex_hex_digit (d : Z) : 0 <= d < 16 -> unhex (hex_digit d) = Some d.
Proof.
  intros Hd.
  pose (f := fun d => match unhex (hex_digit d) with
                      | Some x => x =? d
                      | None => false
                      end).
  assert (H : f d = true)
    by (apply (forallb_range f 16); [reflexivity | exact Hd]).
  unfold f in H. destruct (unhex (hex_digit d)); [|discriminate].
  apply Z.eqb_eq in H. now subst.
Qed.

Lemma digits16_zero (k : nat) :
  map hex_digit (digits16 k 0) = repeat "0"%char k.
Proof. induction k; simpl; [reflexivity|]. now rewrite Zdiv_0_l, IHk. Qed.

Lemma pow16_succ (k : nat) : 16 ^ Z.of_nat (S k) = 16 * 16 ^ Z.of_nat k.
Proof. rewrite Nat2Z.inj_succ, Z.pow_succ_r; lia. Qed.

Lemma hex_rev_pad (k : nat) : forall (fuel : nat) (n : Z),
  0 <= n < 16 ^ Z.of_nat (S k) -> n < 16 ^ Z.of_nat fuel ->
  hex_rev fuel n ++ repeat "0"%char (S k - length (hex_rev fuel n))
  = map hex_digit (digits16 (S k) n).
Proof.
  assert (Hno_fuel : forall j n, 0 <= n < 16 ^ Z.of_nat 0 ->
            hex_rev 0 n ++ repeat "0"%char (S j - length (hex_rev 0 n))
            = map hex_digit (digits16 (S j) n)).
  { intros j n Hn. change (16 ^ Z.of_nat 0) with 1 in Hn.
    assert (n = 0) by lia. subst n.
    rewrite digits16_zero. reflexivity. }
  induction k as [|k IH]; intros fuel n Hn Hf.
  - destruct fuel as [|f]; [apply Hno_fuel; lia|].
    simpl in Hn. simpl.
    destruct (Z.ltb_spec n 16); [|lia]. simpl.
    now rewrite Z.mod_small by lia.
  - destruct fuel as [|f]; [apply Hno_fuel; lia|].
    rewrite pow16_succ in Hn, Hf.
    cbn [hex_rev]. destruct (Z.ltb_spec n 16).
    + cbn [length app digits16 map Nat.sub].
      rewrite Z.mod_small, Z.div_small by lia.
      change (hex_digit (0 mod 16) :: map hex_digit (digits16 k (0 / 16)))
        with (map hex_digit (digits16 (S k) 0)).
      now rewrite digits16_zero.
    + assert (Hq : 0 <= n / 16 < 16 ^ Z.of_nat (S k)).
      { split; [apply Z.div_pos; lia|].
        apply Z.div_lt_upper_bound; lia. }
      assert (Hqf : n / 16 < 16 ^ Z.of_nat f)
        by (apply Z.div_lt_upper_bound; lia).
      specialize (IH f (n / 16) Hq Hqf).
      cbn [length app Nat.sub].
      change (digits16 (S (S k)) n)
        with (n mod 16 :: digits16 (S k) (n / 16)).
      cbn [map]. f_equal. exact IH.
Qed.

Lemma rev_repeat_char (c : ascii) (k : nat) : rev (repeat c k) = repeat c k.
Proof.
  induction k; simpl; [reflexivity|].
  rewrite IHk. clear IHk. induction k; simpl; [reflexivity|]. now f_equal.
Qed.

Lemma hex_fuel_enough (n : Z) :
  0 <= n -> n < 16 ^ Z.of_nat (S (Z.to_nat (Z.log2 n))).
Proof.
  intros Hn. rewrite Nat2Z.inj_succ, Z2Nat.id by apply Z.log2_nonneg.
  destruct (Z.eq_dec n 0) as [->|Hz]; [reflexivity|].
  pose proof (Z.log2_spec n ltac:(lia)) as [_ Hlt].
  eapply Z.lt_le_trans; [exact Hlt|].
  apply Z.pow_le_mono_l. lia.
Qed.

(** ["%0kx"] of a number of at most [k >= 1] digits: exactly [k] digits,
    most significant first. *)
Lemma format_x_fixed (k : nat) (n : Z) :
  0 <= n < 16 ^ Z.of_nat (S k) ->
  format_x (S k) n = rev (map hex_digit (digits16 (S k) n)).
Proof.
  intros Hn. unfold format_x, zero_pad, hex_abs.
  destruct (Z.ltb_spec n 0); [lia|].
  rewrite <- (hex_rev_pad k (S (Z.to_nat (Z.log2 n))) n Hn)
    by (apply hex_fuel_enough; lia).
  now rewrite rev_app_distr, rev_repeat_char, length_rev.
Qed.

(** The plain ["%x"] of one digit. *)
Lemma format_x_digit (d : Z) : 0 <= d < 16 -> format_x 0 d = [hex_digit d].
Proof.
  intros Hd. unfold format_x, zero_pad, hex_abs.
  destruct (Z.ltb_spec d 0); [lia|]. cbn [hex_rev].
  destruct (Z.ltb_spec d 16); [|lia]. reflexivity.
Qed.

(** The plain ["%x"] of a number from 16 to 255 has two digits. *)
Lemma format_x_two_digits (e : Z) :
  16 <= e < 256 -> length (format_x 0 e) = 2%nat.
Proof.
  intros He.
  pose (f := fun e => (e <? 16) || (length (format_x 0 e) =? 2)%nat).
  assert (H : f e = true)
    by (apply (forallb_range f 256); [vm_compute; reflexivity | lia]).
  unfold f in H. destruct (Z.ltb_spec e 16); [lia|].
  now apply Nat.eqb_eq in H.
Qed.

Lemma a2b_hex_cons2 (a b : Z) (rest : list ascii) :
  0 <= a < 16 -> 0 <= b < 16 ->
  a2b_hex (hex_digit a :: hex_digit b :: rest)
  = (bs <~ a2b_hex rest ;; Ok (16 * a + b :: bs)).
Proof.
  intros Ha Hb. cbn [a2b_hex].
  now rewrite (unhex_hex_digit a Ha), (unhex_hex_digit b Hb).
Qed.

(** A string of odd length is refused. *)
Lemma a2b_hex_odd_aux (s : list ascii) :
  (Nat.odd (length s) = true -> a2b_hex s = Raise TypeError)
  /\ (forall c, Nat.odd (length (c :: s)) = true ->
                a2b_hex (c :: s) = Raise TypeError).
Proof.
  induction s as [|x s [IH1 IH2]].
  - split; [discriminate | reflexivity].
  - split; [apply IH2|].
    intros c Hodd. cbn [a2b_hex].
    change (length (c :: x :: s)) with (S (S (length s))) in Hodd.
    rewrite Nat.odd_succ_succ in Hodd.
    rewrite (IH1 Hodd).
    destruct (unhex c); [|reflexivity]. destruct (unhex x); reflexivity.
Qed.

Lemma a2b_hex_odd (s : list ascii) :
  Nat.odd (length s) = true -> a2b_hex s = Raise TypeError.
Proof. apply a2b_hex_odd_aux. Qed.

Lemma byte_recombine (m : Z) : 16 * ((m / 16) mod 16) + m mod 16 = m mod 256.
Proof.
  change 256 with (16 * 16).
  rewrite Z.rem_mul_r by lia. lia.
Qed.

(** ["%02x"] of a byte, decoded: that byte. *)
Lemma a2b_hex_02x (p : Z) (rest : list ascii) :
  is_byte p ->
  a2b_hex (format_x 2 p ++ rest) = (bs <~ a2b_hex rest ;; Ok (p :: bs)).
Proof.
  unfold is_byte. intros Hp.
  rewrite format_x_fixed by (change (16 ^ Z.of_nat 2) with 256; lia).
  cbn [digits16 map rev app].
  rewrite a2b_hex_cons2 by (apply Z.mod_pos_bound; lia).
  rewrite byte_recombine, Z.mod_small by lia. reflexivity.
Qed.

Lemma pack_B_ok (l : list Z) : Forall is_byte l -> pack_B l = Ok l.
Proof.
  intros H. unfold pack_B.
  replace (forallb _ l) with true; [reflexivity|].
  symmetry. apply forallb_forall. intros b Hb.
  rewrite Forall_forall in H. specialize (H b Hb). unfold is_byte in H.
  apply andb_true_iff. split; [apply Z.leb_le | apply Z.ltb_lt]; lia.
Qed.

End PyFacts.

(** ** The variable-length quantity *)

Module VlqFacts.
Import Py PyFacts.

Lemma land_127 (x : Z) : Z.land x 127 = x mod 128.
Proof. change 127 with (Z.ones 7). now rewrite Z.land_ones by lia. Qed.

Lemma shiftr_7 (v : Z) (i : nat) :
  Z.shiftr v (Z.of_nat i * 7) = v / 128 ^ Z.of_nat i.
Proof.
  rewrite Z.shiftr_div_pow2 by lia.
  rewrite (Z.mul_comm (Z.of_nat i) 7), Z.pow_mul_r by lia. reflexivity.
Qed.

Lemma lor_128 (x : Z) : 0 <= x < 128 -> Z.lor x 128 = x + 128.
Proof.
  intros Hx. pose (f := fun x => Z.lor x 128 =? x + 128).
  assert (H : f x = true)
    by (apply (forallb_range f 128); [reflexivity | exact Hx]).
  now apply Z.eqb_eq in H.
Qed.

Lemma flag_set (x : Z) :
  0 <= x < 128 -> Z.testbit (x + 128) 7 = true /\ Z.land (x + 128) 127 = x.
Proof.
  intros Hx.
  pose (f := fun x => Z.testbit (x + 128) 7 && (Z.land (x + 128) 127 =? x)).
  assert (H : f x = true)
    by (apply (forallb_range f 128); [reflexivity | exact Hx]).
  apply andb_true_iff in H. destruct H as [H1 H2].
  now apply Z.eqb_eq in H2.
Qed.

Lemma flag_clear (x : Z) :
  0 <= x < 128 -> Z.testbit x 7 = false /\ Z.land x 127 = x.
Proof.
  intros Hx.
  pose (f := fun x => negb (Z.testbit x 7) && (Z.land x 127 =? x)).
  assert (H : f x = true)
    by (apply (forallb_range f 128); [reflexivity | exact Hx]).
  apply andb_true_iff in H. destruct H as [H1 H2].
  apply negb_true_iff in H1. now apply Z.eqb_eq in H2.
Qed.

Lemma set_item_middle (pre : list Z) (h : Z) (t : list Z) (x : Z) :
  set_item (pre ++ h :: t) (length pre) x = pre ++ x :: t.
Proof. induction pre; simpl; [reflexivity|]. now rewrite IHpre. Qed.

(** The loop that sets the flag on every byte but the last. *)
Lemma or_high_loop (A : list Z) : forall (pre : list Z) (x : Z),
  fold_left (fun bs i => set_item bs i (Z.lor (nth i bs 0) 128))
            (seq (length pre) (length A)) (pre ++ A ++ [x])
  = pre ++ map (fun b => Z.lor b 128) A ++ [x].
Proof.
  induction A as [|a A IH]; intros pre x; [reflexivity|].
  cbn [length seq fold_left map app].
  rewrite nth_middle, set_item_middle.
  replace (S (length pre)) with (length (pre ++ [Z.lor a 128]))
    by (rewrite length_app; simpl; lia).
  replace (pre ++ Z.lor a 128 :: A ++ [x])
    with ((pre ++ [Z.lor a 128]) ++ A ++ [x])
    by (now rewrite <- app_assoc).
  rewrite IH. now rewrite <- app_assoc.
Qed.

Lemma or_high_all_but_last (A : list Z) (x : Z) :
  fold_left (fun bs i => set_item bs i (Z.lor (nth i bs 0) 128))
            (seq 0 (length A)) (A ++ [x])
  = map (fun b => Z.lor b 128) A ++ [x].
Proof. exact (or_high_loop A [] x). Qed.

Lemma digit_count_pos (v : Z) :
  exists k, vlq_digit_count v = S k.
Proof.
  unfold vlq_digit_count.
  assert (0 <= Z.log2 (Z.max v 1) / 7)
    by (apply Z.div_pos; [apply Z.log2_nonneg | lia]).
  exists (Z.to_nat (Z.log2 (Z.max v 1) / 7)). lia.
Qed.

Lemma encode_vlq_bytes (v : Z) : Forall is_byte (encode_vlq v).
Proof.
  unfold encode_vlq, is_byte. apply Forall_app. split.
  - apply Forall_forall. intros b Hb. apply in_map_iff in Hb.
    destruct Hb as [i [<- _]].
    pose proof (Z.mod_pos_bound (v / 128 ^ Z.of_nat i) 128). lia.
  - constructor; [|constructor].
    pose proof (Z.mod_pos_bound v 128). lia.
Qed.

(** [int_to_varbyte] computes the encoding of the spec. *)
Lemma int_to_varbyte_encode_vlq (v : Z) :
  int_to_varbyte v = Ok (encode_vlq v).
Proof.
  unfold int_to_varbyte.
  set (bytes0 := map _ (range _)).
  assert (Hrev : rev bytes0
                 = map (fun i => (v / 128 ^ Z.of_nat i) mod 128)
                       (rev (seq 1 (vlq_digit_count v - 1)))
                   ++ [v mod 128]).
  { subst bytes0. unfold range, int_log128.
    fold (vlq_digit_count v).
    destruct (digit_count_pos v) as [k ->].
    replace (S k - 1)%nat with k by lia.
    rewrite map_map. cbn [seq map rev].
    rewrite <- map_rev.
    f_equal.
    - apply map_ext. intros i.
      now rewrite land_127, shiftr_7.
    - now rewrite land_127, Z.shiftr_0_r. }
  rewrite Hrev.
  rewrite length_app, length_map. cbn [length].
  replace (length (rev (seq 1 (vlq_digit_count v - 1))) + 1 - 1)%nat
    with (length (map (fun i => (v / 128 ^ Z.of_nat i) mod 128)
                      (rev (seq 1 (vlq_digit_count v - 1)))))
    by (rewrite length_map; lia).
  rewrite or_high_all_but_last.
  rewrite map_map.
  rewrite (map_ext _ (fun i => (v / 128 ^ Z.of_nat i) mod 128 + 128))
    by (intros i; apply lor_128, Z.mod_pos_bound; lia).
  apply pack_B_ok, encode_vlq_bytes.
Qed.

Lemma digit_count_range (v : Z) (k : Z) :
  0 <= k -> 128 ^ k <= Z.max v 1 < 128 ^ (k + 1) ->
  vlq_digit_count v = Z.to_nat (k + 1).
Proof.
  intros Hk [Hlo Hhi]. unfold vlq_digit_count. f_equal. f_equal.
  assert (Hpos : 0 < Z.max v 1) by lia.
  change 128 with (2 ^ 7) in Hlo, Hhi.
  rewrite <- Z.pow_mul_r in Hlo, Hhi by lia.
  apply Z.log2_le_pow2 in Hlo; [|exact Hpos].
  apply Z.log2_lt_pow2 in Hhi; [|exact Hpos].
  symmetry. apply (Z.div_unique _ 7 k (Z.log2 (Z.max v 1) - 7 * k)); lia.
Qed.

Lemma encode_vlq_1 (v : Z) : 0 <= v < 128 -> encode_vlq v = [v].
Proof.
  intros Hv. unfold encode_vlq.
  rewrite (digit_count_range v 0) by (simpl; lia).
  cbn [Z.to_nat Z.add Pos.to_nat Pos.iter_op Nat.sub seq rev map app].
  now rewrite Z.mod_small by lia.
Qed.

Lemma encode_vlq_2 (v : Z) :
  128 <= v < 16384 -> encode_vlq v = [v / 128 + 128; v mod 128].
Proof.
  intros Hv. unfold encode_vlq.
  rewrite (digit_count_range v 1) by (simpl; lia).
  change (Z.to_nat (1 + 1)) with 2%nat.
  cbn [Nat.sub seq rev map app].
  change (128 ^ Z.of_nat 1) with 128.
  rewrite (Z.mod_small (v / 128)); [reflexivity|].
  split; [apply Z.div_pos; lia | apply Z.div_lt_upper_bound; lia].
Qed.

Lemma encode_vlq_3 (v : Z) :
  16384 <= v < 2097152 ->
  encode_vlq v = [v / 16384 + 128; (v / 128) mod 128 + 128; v mod 128].
Proof.
  intros Hv. unfold encode_vlq.
  rewrite (digit_count_range v 2) by (simpl; lia).
  change (Z.to_nat (2 + 1)) with 3%nat.
  cbn [Nat.sub seq rev map app].
  change (128 ^ Z.of_nat 1) with 128. change (128 ^ Z.of_nat 2) with 16384.
  rewrite (Z.mod_small (v / 16384)); [reflexivity|].
  split; [apply Z.div_pos; lia | apply Z.div_lt_upper_bound; lia].
Qed.

End VlqFacts.

(** ** Events *)

Module EventFacts.
Import Py PyFacts.

Lemma asserts_pass (event_type channel : Z) :
  0 <= event_type < 128 -> 0 <= channel < 16 ->
  negb ((event_type <? 128) && (event_type >=? 0)) = false
  /\ negb ((channel <? 16) && (channel >=? 0)) = false.
Proof.
  intros He Hc. rewrite !Z.geb_leb.
  split; apply negb_false_iff, andb_true_iff;
    (split; [apply Z.ltb_lt | apply Z.leb_le]); lia.
Qed.

Lemma a2b_hex_status (event_type channel : Z) :
  0 <= event_type < 16 -> 0 <= channel < 16 ->
  a2b_hex (format_x 0 event_type ++ format_x 0 channel)
  = Ok [status_byte event_type channel].
Proof.
  intros He Hc. rewrite !format_x_digit by assumption.
  cbn [app]. now rewrite a2b_hex_cons2 by assumption.
Qed.

Lemma a2b_hex_params (p1 : Z) (param2 : option Z) :
  is_byte p1 -> (forall p2, param2 = Some p2 -> is_byte p2) ->
  match param2 with
  | None => a2b_hex (format_x 2 p1)
  | Some p2 => a2b_hex (format_x 2 p1 ++ format_x 2 p2)
  end
  = Ok (p1 :: match param2 with Some p2 => [p2] | None => [] end).
Proof.
  intros H1 H2. destruct param2 as [p2|].
  - rewrite a2b_hex_02x by assumption.
    rewrite <- (app_nil_r (format_x 2 p2)).
    rewrite a2b_hex_02x by (now apply H2). reflexivity.
  - rewrite <- (app_nil_r (format_x 2 p1)).
    now rewrite a2b_hex_02x by assumption.
Qed.

Lemma midi_event_ok (self : MidiTrack) (event_type channel p1 : Z)
    (param2 : option Z) :
  0 <= event_type < 16 -> 0 <= channel < 16 ->
  is_byte p1 -> (forall p2, param2 = Some p2 -> is_byte p2) ->
  midi_event self event_type channel p1 param2
  = Ok (delta_time self ++ [status_byte event_type channel]
        ++ p1 :: match param2 with Some p2 => [p2] | None => [] end).
Proof.
  intros He Hc H1 H2. unfold midi_event.
  destruct (asserts_pass event_type channel) as [-> ->]; [lia | lia |].
  cbn [negb].
  rewrite a2b_hex_status by assumption. rewrite rbind_Ok.
  rewrite a2b_hex_params by assumption. reflexivity.
Qed.

(** An event type of two hexadecimal digits passes the assertion and then
    gives [a2b_hex] three digits. *)
Lemma midi_event_wide_type (self : MidiTrack) (event_type channel p1 : Z)
    (param2 : option Z) :
  16 <= event_type < 128 -> 0 <= channel < 16 ->
  midi_event self event_type channel p1 param2 = Raise TypeError.
Proof.
  intros He Hc. unfold midi_event.
  destruct (asserts_pass event_type channel) as [-> ->]; [lia | lia |].
  cbn [negb].
  rewrite a2b_hex_odd; [reflexivity|].
  rewrite length_app, format_x_two_digits by lia.
  now rewrite format_x_digit by assumption.
Qed.

Lemma midi_event_assert (self : MidiTrack) (event_type channel p1 : Z)
    (param2 : option Z) :
  ~ (0 <= event_type < 128 /\ 0 <= channel < 16) ->
  midi_event self event_type channel p1 param2 = Raise AssertionError.
Proof.
  intros H. unfold midi_event. rewrite !Z.geb_leb.
  destruct (Z.ltb_spec event_type 128), (Z.leb_spec 0 event_type);
    cbn [andb negb]; try reflexivity.
  destruct (Z.ltb_spec channel 16), (Z.leb_spec 0 channel);
    cbn [andb negb]; try reflexivity.
  lia.
Qed.

Lemma note_on_ok (self : MidiTrack) (channel : Z) (note : Note) :
  valid_channel channel -> valid_note note ->
  note_on self channel (note_int note + 12) (note_velocity note)
  = Ok (delta_time self ++ note_on_bytes channel note).
Proof.
  intros Hc [Hp Hv]. unfold note_on.
  rewrite midi_event_ok; try assumption; try reflexivity.
  - unfold NOTE_ON. lia.
  - now intros p2 [= <-].
Qed.

Lemma note_off_ok (self : MidiTrack) (channel : Z) (note : Note) :
  valid_channel channel -> valid_note note ->
  note_off self channel (note_int note + 12) (note_velocity note)
  = Ok (delta_time self ++ note_off_bytes channel note).
Proof.
  intros Hc [Hp Hv]. unfold note_off.
  rewrite midi_event_ok; try assumption; try reflexivity.
  - unfold NOTE_OFF. lia.
  - now intros p2 [= <-].
Qed.

End EventFacts.

(** ** Note groups, bars and tracks *)

Module ConverterFacts.
Import Py PyFacts VlqFacts EventFacts.

Lemma with_track_data_same (s : MidiTrack) :
  with_track_data s (track_data s ++ []) = s.
Proof. destruct s. unfold with_track_data. simpl. now rewrite app_nil_r. Qed.

Lemma append_track_data_Ok (r : MidiTrack -> result bytes) (s : MidiTrack)
    (b : bytes) :
  r s = Ok b ->
  append_track_data r s = (Ok tt, with_track_data s (track_data s ++ b)).
Proof.
  intros H. unfold append_track_data, bind, lift, modify. now rewrite H.
Qed.

Lemma append_track_data_Raise (r : MidiTrack -> result bytes) (s : MidiTrack)
    (e : exn) :
  r s = Raise e -> append_track_data r s = (Raise e, s).
Proof.
  intros H. unfold append_track_data, bind, lift, modify. now rewrite H.
Qed.

Lemma play_Note_ok (channel : Z) (note : Note) (s : MidiTrack) :
  valid_channel channel -> valid_note note ->
  play_Note channel note s
  = (Ok tt, with_track_data s (track_data s ++ delta_time s
                               ++ note_on_bytes channel note)).
Proof.
  intros Hc Hn. unfold play_Note.
  apply append_track_data_Ok. now apply note_on_ok.
Qed.

Lemma stop_Note_ok (channel : Z) (note : Note) (s : MidiTrack) :
  valid_channel channel -> valid_note note ->
  stop_Note channel note s
  = (Ok tt, with_track_data s (track_data s ++ delta_time s
                               ++ note_off_bytes channel note)).
Proof.
  intros Hc Hn. unfold stop_Note.
  apply append_track_data_Ok. now apply note_off_ok.
Qed.

Section Emit.
Variable emit : Note -> M unit.
Variable ev : Note -> bytes.
Hypothesis emit_ok : forall note s, valid_note note ->
  emit note s
  = (Ok tt, with_track_data s (track_data s ++ delta_time s ++ ev note)).

Lemma for_each_emit (notes : list Note) : forall s,
  Forall valid_note notes ->
  for_each emit notes s
  = (Ok tt, with_track_data s
              (track_data s
               ++ concat (map (fun n => delta_time s ++ ev n) notes))).
Proof.
  induction notes as [|n notes IH]; intros s Hv.
  - cbn. now rewrite with_track_data_same.
  - inversion Hv as [|? ? Hn Hrest]; subst.
    cbn [for_each]. unfold bind. rewrite (emit_ok n s Hn).
    rewrite (IH _ Hrest). destruct s. unfold with_track_data.
    cbn. now rewrite <- !app_assoc.
Qed.
End Emit.

Lemma set_deltatime_zero (s : MidiTrack) :
  set_deltatime (DeltaInt 0) s = (Ok tt, with_delta_time s [0]).
Proof. reflexivity. Qed.

Lemma set_deltatime_int (v : Z) (s : MidiTrack) :
  set_deltatime (DeltaInt v) s = (Ok tt, with_delta_time s (encode_vlq v)).
Proof.
  unfold set_deltatime, bind, lift, modify.
  now rewrite int_to_varbyte_encode_vlq.
Qed.

Ltac container_case emit_ok s :=
  intros Hc Hv;
  match goal with
  | |- context [chord_bytes _ _ ?notes] =>
      destruct notes as [|n1 [|n2 rest]]
  end;
  [ destruct s; unfold with_track_data; cbn; now rewrite app_nil_r
  | inversion Hv as [|? ? Hn1 _]; subst;
    cbn -[note_on_bytes note_off_bytes]; unfold bind;
    rewrite (emit_ok _ _ s Hc Hn1); cbn;
    destruct s; unfold with_track_data; cbn; now rewrite !app_nil_r
  | inversion Hv as [|? ? Hn1 Hrest]; subst;
    cbn -[note_on_bytes note_off_bytes for_each chord_bytes]; unfold bind;
    rewrite (emit_ok _ _ s Hc Hn1); rewrite set_deltatime_zero;
    rewrite (for_each_emit _ _ (fun n s => emit_ok _ n s Hc) _ _ Hrest);
    destruct s; unfold with_track_data, with_delta_time; cbn;
    now rewrite <- !app_assoc ].

Lemma play_NoteContainer_ok (channel : Z) (notes : NoteContainer)
    (s : MidiTrack) :
  valid_channel channel -> Forall valid_note notes ->
  play_NoteContainer channel notes s
  = (Ok tt, mkMidiTrack
              (track_data s
               ++ chord_bytes (note_on_bytes channel) (delta_time s) notes)
              (chord_delta_after (delta_time s) notes) (delay s) (bpm s)).
Proof. container_case play_Note_ok s. Qed.

Lemma stop_NoteContainer_ok (channel : Z) (notes : NoteContainer)
    (s : MidiTrack) :
  valid_channel channel -> Forall valid_note notes ->
  stop_NoteContainer channel notes s
  = (Ok tt, mkMidiTrack
              (track_data s
               ++ chord_bytes (note_off_bytes channel) (delta_time s) notes)
              (chord_delta_after (delta_time s) notes) (delay s) (bpm s)).
Proof. container_case stop_Note_ok s. Qed.

End ConverterFacts.

(** ** Bars *)

Module BarFacts.
Import Py PyFacts VlqFacts EventFacts ConverterFacts.

Lemma round_div_288 (value : Z) :
  0 < value -> round_div 288 value = (576 + value) / (2 * value).
Proof.
  intros Hv. unfold round_div.
  rewrite (Z.sgn_pos value Hv), (Z.abs_eq value) by lia.
  change (Z.sgn 288) with 1. change (2 * Z.abs 288) with 576. lia.
Qed.

(** The tick count is 288 / value rounded to the nearest whole number,
    a half rounded up. *)
Lemma tick_nearest (value : Z) :
  0 < value ->
  576 - value < 2 * value * round_div 288 value <= 576 + value.
Proof.
  intros Hv. rewrite round_div_288 by assumption.
  pose proof (Z.mul_div_le (576 + value) (2 * value) ltac:(lia)).
  pose proof (Z.mul_succ_div_gt (576 + value) (2 * value) ltac:(lia)).
  lia.
Qed.

Lemma tick_bounds (value : Z) :
  0 < value -> 0 <= round_div 288 value <= 288.
Proof.
  intros Hv. pose proof (tick_nearest value Hv). nia.
Qed.

Lemma beat_tick_ok (value : Z) :
  value <> 0 -> beat_tick value = Ok (round_div 288 value).
Proof.
  intros Hv. unfold beat_tick. destruct (Z.eqb_spec value 0); [lia|].
  reflexivity.
Qed.

Lemma play_Bar_beat_rest (channel : Z) (x : Beat) (s : MidiTrack) :
  beat_value x <> 0 ->
  beat_notes x = None \/ beat_notes x = Some [] ->
  play_Bar_beat channel x s
  = (Ok tt, with_delay s (delay s + round_div 288 (beat_value x))).
Proof.
  intros Hv Hrest. unfold play_Bar_beat, bind, lift.
  rewrite beat_tick_ok by assumption.
  destruct Hrest as [-> | ->]; reflexivity.
Qed.

Lemma play_Bar_beat_sounding (channel : Z) (x : Beat) (notes : NoteContainer)
    (s : MidiTrack) :
  valid_channel channel -> beat_value x <> 0 ->
  beat_notes x = Some notes -> notes <> [] -> Forall valid_note notes ->
  play_Bar_beat channel x s
  = (Ok tt,
     after_sounding_beat s channel (round_div 288 (beat_value x)) notes).
Proof.
  intros Hc Hv Hx Hne Hn. unfold play_Bar_beat, bind, lift.
  rewrite beat_tick_ok by assumption. rewrite Hx.
  destruct notes as [|n notes]; [contradiction|].
  cbn [length Nat.eqb].
  rewrite set_deltatime_int. unfold modify at 1.
  rewrite play_NoteContainer_ok by assumption.
  rewrite int_to_varbyte_encode_vlq.
  cbn [set_deltatime bind ret modify]. unfold bind, ret, modify.
  rewrite stop_NoteContainer_ok by assumption.
  unfold after_sounding_beat, with_delta_time, with_delay.
  cbn [track_data delta_time delay bpm].
  now rewrite <- app_assoc.
Qed.

Lemma play_Bar_cons (channel : Z) (x : Beat) (bar : Bar) (s s' : MidiTrack) :
  play_Bar_beat channel x s = (Ok tt, s') ->
  play_Bar channel (x :: bar) s = play_Bar channel bar s'.
Proof.
  intros H. unfold play_Bar. cbn [for_each]. unfold bind at 1.
  now rewrite H.
Qed.

End BarFacts.

(** ** Tracks *)

Module TrackFacts.
Import Py PyFacts EventFacts ConverterFacts.

(** What [set_instrument] appends: the controller event goes out with
    [BANK_SELECT] where the channel belongs and the channel where the
    controller number belongs. *)
Lemma set_instrument_ok (channel instr bank : Z) (s : MidiTrack) :
  valid_channel channel -> is_byte instr -> is_byte bank ->
  set_instrument channel instr bank s
  = (Ok tt,
     with_track_data s
       ((track_data s
         ++ delta_time s ++ [status_byte CONTROLLER BANK_SELECT; channel; bank])
        ++ delta_time s ++ [status_byte PROGRAM_CHANGE channel; instr])).
Proof.
  intros Hc Hi Hb. unfold valid_channel, is_byte in *.
  unfold set_instrument, bind.
  rewrite (append_track_data_Ok _ s
             (delta_time s
              ++ [status_byte CONTROLLER BANK_SELECT; channel; bank])).
  - rewrite (append_track_data_Ok _ _
               (delta_time s ++ [status_byte PROGRAM_CHANGE channel; instr])).
    + destruct s. reflexivity.
    + unfold program_change_event.
      rewrite midi_event_ok; unfold PROGRAM_CHANGE, is_byte;
        try lia; try discriminate.
      destruct s. reflexivity.
  - unfold select_bank, controller_event.
    rewrite midi_event_ok; unfold CONTROLLER, BANK_SELECT, is_byte;
      try lia; [reflexivity|].
    intros p2 [= <-]. lia.
Qed.

(** [play_Track]: the delay set to 0, the two events of the instrument when
    it has a program number, then the bars in order. *)
Lemma play_Track_ok (channel : Z) (track : Track) (s : MidiTrack) :
  valid_channel channel ->
  (forall nr, instrument_nr track = Some nr -> is_byte nr) ->
  play_Track channel track s
  = for_each (play_Bar channel) (track_bars track)
      match instrument_nr track with
      | Some nr =>
          mkMidiTrack
            ((track_data s
              ++ delta_time s ++ [status_byte CONTROLLER BANK_SELECT; channel; 1])
             ++ delta_time s ++ [status_byte PROGRAM_CHANGE channel; nr])
            (delta_time s) 0 (bpm s)
      | None => with_delay s 0
      end.
Proof.
  intros Hc Hnr. unfold play_Track, bind at 1, modify at 1.
  destruct (instrument_nr track) as [nr|].
  - unfold bind at 1.
    rewrite set_instrument_ok;
      [reflexivity | assumption | now apply Hnr | unfold is_byte; lia].
  - reflexivity.
Qed.

End TrackFacts.

(** ** What an operation leaves of the buffer *)

Create HintDb appends.

Module AppendFacts.

Lemma extends_refl (s : MidiTrack) : extends s s.
Proof. exists []. now rewrite app_nil_r. Qed.

Lemma extends_trans (s1 s2 s3 : MidiTrack) :
  extends s1 s2 -> extends s2 s3 -> extends s1 s3.
Proof.
  intros [m1 H1] [m2 H2]. exists (m1 ++ m2).
  now rewrite H2, H1, app_assoc.
Qed.

Lemma appends_only_ret {A} (a : A) : appends_only (ret a).
Proof. intros s. apply extends_refl. Qed.

Lemma appends_only_lift {A} (r : MidiTrack -> result A) :
  appends_only (lift r).
Proof. intros s. apply extends_refl. Qed.

Lemma appends_only_bind {A B} (m : M A) (k : A -> M B) :
  appends_only m -> (forall a, appends_only (k a)) ->
  appends_only (bind m k).
Proof.
  intros Hm Hk s. unfold bind. specialize (Hm s).
  destruct (m s) as [[a|e] s1]; cbn [snd] in *.
  - eapply extends_trans; [exact Hm | apply Hk].
  - exact Hm.
Qed.

Lemma appends_only_modify (f : MidiTrack -> MidiTrack) :
  (forall s, extends s (f s)) -> appends_only (modify f).
Proof. intros H s. apply H. Qed.

Lemma extends_with_delta_time (s : MidiTrack) (b : bytes) :
  extends s (with_delta_time s b).
Proof. exists []. cbn. now rewrite app_nil_r. Qed.

Lemma extends_with_delay (s : MidiTrack) (d : Z) :
  extends s (with_delay s d).
Proof. exists []. cbn. now rewrite app_nil_r. Qed.

Lemma extends_with_bpm (s : MidiTrack) (b : Z) :
  extends s (with_bpm s b).
Proof. exists []. cbn. now rewrite app_nil_r. Qed.

Lemma extends_with_track_data (s : MidiTrack) (b : bytes) :
  extends s (with_track_data s (track_data s ++ b)).
Proof. now exists b. Qed.

#[export] Hint Resolve appends_only_ret appends_only_lift appends_only_bind
  appends_only_modify extends_with_delta_time extends_with_delay
  extends_with_bpm extends_with_track_data : appends.

Lemma appends_only_for_each {A} (f : A -> M unit) (l : list A) :
  (forall x, appends_only (f x)) -> appends_only (for_each f l).
Proof. intros Hf. induction l; cbn [for_each]; auto with appends. Qed.

Lemma appends_only_append_track_data (r : MidiTrack -> result bytes) :
  appends_only (append_track_data r).
Proof. unfold append_track_data. auto with appends. Qed.

#[export] Hint Resolve appends_only_for_each appends_only_append_track_data
  : appends.

Lemma appends_only_set_deltatime (d : delta_arg) :
  appends_only (set_deltatime d).
Proof. unfold set_deltatime. destruct d; auto with appends. Qed.

Lemma appends_only_play_Note (channel : Z) (note : Note) :
  appends_only (play_Note channel note).
Proof. unfold play_Note. auto with appends. Qed.

Lemma appends_only_stop_Note (channel : Z) (note : Note) :
  appends_only (stop_Note channel note).
Proof. unfold stop_Note. auto with appends. Qed.

#[export] Hint Resolve appends_only_set_deltatime appends_only_play_Note
  appends_only_stop_Note : appends.

Lemma appends_only_play_NoteContainer (channel : Z) (notes : NoteContainer) :
  appends_only (play_NoteContainer channel notes).
Proof.
  unfold play_NoteContainer.
  destruct (length notes <=? 1)%nat; [auto with appends|].
  destruct notes; auto 6 with appends.
Qed.

Lemma appends_only_stop_NoteContainer (channel : Z) (notes : NoteContainer) :
  appends_only (stop_NoteContainer channel notes).
Proof.
  unfold stop_NoteContainer.
  destruct (length notes <=? 1)%nat; [auto with appends|].
  destruct notes; auto 6 with appends.
Qed.

#[export] Hint Resolve appends_only_play_NoteContainer
  appends_only_stop_NoteContainer : appends.

Lemma appends_only_play_Bar_beat (channel : Z) (x : Beat) :
  appends_only (play_Bar_beat channel x).
Proof.
  unfold play_Bar_beat. apply appends_only_bind; [auto with appends|].
  intros tick. destruct (beat_notes x) as [notes|]; [|auto with appends].
  destruct (length notes =? 0)%nat; auto 10 with appends.
Qed.

Lemma appends_only_play_Bar (channel : Z) (bar : Bar) :
  appends_only (play_Bar channel bar).
Proof.
  unfold play_Bar. apply appends_only_for_each.
  apply appends_only_play_Bar_beat.
Qed.

Lemma appends_only_set_instrument (channel instr bank : Z) :
  appends_only (set_instrument channel instr bank).
Proof. unfold set_instrument. auto with appends. Qed.

Lemma appends_only_set_tempo (bpm0 : Z) : appends_only (set_tempo bpm0).
Proof. unfold set_tempo. auto with appends. Qed.

#[export] Hint Resolve appends_only_play_Bar appends_only_set_instrument
  appends_only_set_tempo : appends.

Lemma appends_only_play_Track (channel : Z) (track : Track) :
  appends_only (play_Track channel track).
Proof.
  unfold play_Track. destruct (instrument_nr track); auto 8 with appends.
Qed.

End AppendFacts.

(** ** The chunk *)

Module ChunkFacts.
Import Py PyFacts.

Lemma a2b_hex_08x (n : Z) :
  0 <= n < 4294967296 -> a2b_hex (format_x 8 n) = Ok (big_endian_4 n).
Proof.
  intros Hn.
  rewrite format_x_fixed by (change (16 ^ Z.of_nat 8) with 4294967296; lia).
  cbn [digits16 map rev app].
  rewrite !a2b_hex_cons2 by (apply Z.mod_pos_bound; lia).
  cbn [a2b_hex rbind]. rewrite !byte_recombine.
  rewrite !Z.div_div by lia. reflexivity.
Qed.

Lemma big_endian_4_value (n : Z) :
  0 <= n < 4294967296 -> big_endian_value (big_endian_4 n) = n.
Proof.
  intros Hn. unfold big_endian_value, big_endian_4. cbn [fold_left].
  Z.to_euclidean_division_equations. lia.
Qed.

Lemma big_endian_4_bytes (n : Z) : Forall is_byte (big_endian_4 n).
Proof.
  unfold big_endian_4, is_byte.
  repeat constructor; apply Z.mod_pos_bound; lia.
Qed.

End ChunkFacts.

(** ** Sequences of operations *)

Module OperationFacts.
Import AppendFacts.

Lemma appends_only_run (o : operation) :
  o <> Do_reset -> appends_only (run o).
Proof.
  intros Hr. destruct o; cbn [run]; auto with appends.
  - apply appends_only_play_Track.
  - contradiction.
Qed.

Lemma run_all_extends (ops : list operation) : forall s,
  Forall (fun o => o <> Do_reset) ops -> extends s (run_all ops s).
Proof.
  induction ops as [|o ops IH]; intros s Hops; cbn [run_all].
  - apply extends_refl.
  - inversion Hops as [|? ? Ho Hrest]; subst.
    eapply extends_trans; [apply (appends_only_run o Ho) | now apply IH].
Qed.

End OperationFacts.

(** ** A call that raises part of the way *)

Module FailureFacts.
Import Py PyFacts EventFacts ConverterFacts AppendFacts.

Lemma for_each_app {A} (f : A -> M unit) (l1 l2 : list A) (s : MidiTrack) :
  for_each f (l1 ++ l2) s = (for_each f l1 >> for_each f l2) s.
Proof.
  revert s. induction l1 as [|x l1 IH]; intros s; [reflexivity|].
  cbn [app for_each]. unfold bind in *.
  destruct (f x s) as [[[]|e] s1]; [|reflexivity].
  apply IH.
Qed.

(** A loop whose first items succeed and whose next item raises: it raises
    there, with the object as that item left it. *)
Lemma for_each_raise_after {A} (f : A -> M unit) (before : list A) (x : A)
    (after : list A) (e : exn) (s s1 s2 : MidiTrack) :
  for_each f before s = (Ok tt, s1) -> f x s1 = (Raise e, s2) ->
  for_each f (before ++ x :: after) s = (Raise e, s2).
Proof.
  intros Hbefore Hx. rewrite for_each_app. unfold bind at 1.
  rewrite Hbefore. cbn [for_each]. unfold bind at 1. now rewrite Hx.
Qed.

Lemma for_each_single {A} (f : A -> M unit) (x : A) (e : exn)
    (s1 s2 : MidiTrack) :
  for_each f [x] s1 = (Raise e, s2) -> f x s1 = (Raise e, s2).
Proof.
  cbn [for_each]. unfold bind, ret.
  destruct (f x s1) as [[[]|e0] s3]; [discriminate | trivial].
Qed.

(** Whether [midi_event] raises, and what, does not depend on the
    object. *)
Lemma midi_event_raise_any_self (self self' : MidiTrack)
    (event_type channel p1 : Z) (param2 : option Z) (e : exn) :
  midi_event self event_type channel p1 param2 = Raise e ->
  midi_event self' event_type channel p1 param2 = Raise e.
Proof.
  unfold midi_event.
  destruct (negb ((event_type <? 128) && (event_type >=? 0)));
    [trivial|].
  destruct (negb ((channel <? 16) && (channel >=? 0))); [trivial|].
  destruct (a2b_hex (format_x 0 event_type ++ format_x 0 channel));
    [|trivial].
  cbn [rbind].
  destruct (match param2 with
            | Some p2 => a2b_hex (format_x 2 p1 ++ format_x 2 p2)
            | None => a2b_hex (format_x 2 p1)
            end); [discriminate | trivial].
Qed.

Lemma play_Note_raise (channel : Z) (bad : Note) (e : exn)
    (s s' : MidiTrack) :
  note_on s channel (note_int bad + 12) (note_velocity bad) = Raise e ->
  play_Note channel bad s' = (Raise e, s').
Proof.
  intros H. unfold play_Note. apply append_track_data_Raise.
  unfold note_on in *. now apply (midi_event_raise_any_self s).
Qed.

Lemma stop_Note_raise (channel : Z) (bad : Note) (e : exn)
    (s s' : MidiTrack) :
  note_off s channel (note_int bad + 12) (note_velocity bad) = Raise e ->
  stop_Note channel bad s' = (Raise e, s').
Proof.
  intros H. unfold stop_Note. apply append_track_data_Raise.
  unfold note_off in *. now apply (midi_event_raise_any_self s).
Qed.

Section EmitRaise.
Variable emit : Note -> M unit.
Variable ev : Note -> bytes.
Variable bad : Note.
Variable e : exn.
Hypothesis emit_ok : forall note s, valid_note note ->
  emit note s
  = (Ok tt, with_track_data s (track_data s ++ delta_time s ++ ev note)).
Hypothesis emit_raise : forall s, emit bad s = (Raise e, s).

Lemma for_each_emit_raise (before after : list Note) (s : MidiTrack) :
  Forall valid_note before ->
  for_each emit (before ++ bad :: after) s
  = (Raise e,
     with_track_data s
       (track_data s
        ++ concat (map (fun n => delta_time s ++ ev n) before))).
Proof.
  intros Hv.
  apply (for_each_raise_after emit before bad after e s _ _
           (for_each_emit emit ev emit_ok before s Hv)).
  apply emit_raise.
Qed.
End EmitRaise.

Lemma length_above_one {A} (x : A) (l1 : list A) (y : A) (l2 : list A) :
  (length (x :: l1 ++ y :: l2) <=? 1)%nat = false.
Proof.
  cbn [length]. rewrite length_app. cbn [length].
  rewrite Nat.add_succ_r. reflexivity.
Qed.

Ltac container_raise_case emit_ok emit_raise s :=
  intros Hc Hv Hbad;
  match goal with
  | |- context [chord_bytes _ _ ?before] => destruct before as [|n1 rest1]
  end;
  [ match goal with
    | |- context [?bad :: ?after] => destruct after
    end;
    cbn [app length Nat.leb for_each]; unfold bind;
    rewrite (emit_raise _ _ _ s s Hbad);
    destruct s; unfold with_track_data; cbn; now rewrite app_nil_r
  | inversion Hv as [|? ? Hn1 Hrest]; subst;
    cbn [app]; rewrite length_above_one;
    unfold bind at 1; rewrite (emit_ok _ _ s Hc Hn1);
    unfold bind at 1; rewrite set_deltatime_zero;
    rewrite (for_each_emit_raise _ _ _ _
               (fun n s0 => emit_ok _ n s0 Hc)
               (fun s0 => emit_raise _ _ _ s s0 Hbad) _ _ _ Hrest);
    destruct s; unfold with_track_data, with_delta_time; cbn;
    now rewrite <- !app_assoc ].

(** A container whose note [bad] raises after the notes [before]: the call
    raises with the events of [before] appended. *)
Lemma play_NoteContainer_raise (channel : Z) (before : list Note)
    (bad : Note) (after : list Note) (e : exn) (s : MidiTrack) :
  valid_channel channel -> Forall valid_note before ->
  note_on s channel (note_int bad + 12) (note_velocity bad) = Raise e ->
  play_NoteContainer channel (before ++ bad :: after) s
  = (Raise e,
     mkMidiTrack
       (track_data s
        ++ chord_bytes (note_on_bytes channel) (delta_time s) before)
       (match before with [] => delta_time s | _ :: _ => [0] end)
       (delay s) (bpm s)).
Proof.
  unfold play_NoteContainer.
  container_raise_case play_Note_ok play_Note_raise s.
Qed.

Lemma stop_NoteContainer_raise (channel : Z) (before : list Note)
    (bad : Note) (after : list Note) (e : exn) (s : MidiTrack) :
  valid_channel channel -> Forall valid_note before ->
  note_off s channel (note_int bad + 12) (note_velocity bad) = Raise e ->
  stop_NoteContainer channel (before ++ bad :: after) s
  = (Raise e,
     mkMidiTrack
       (track_data s
        ++ chord_bytes (note_off_bytes channel) (delta_time s) before)
       (match before with [] => delta_time s | _ :: _ => [0] end)
       (delay s) (bpm s)).
Proof.
  unfold stop_NoteContainer.
  container_raise_case stop_Note_ok stop_Note_raise s.
Qed.

Lemma play_Bar_raise_after (channel : Z) (before : Bar) (x : Beat)
    (after : Bar) (e : exn) (s s1 s2 : MidiTrack) :
  play_Bar channel before s = (Ok tt, s1) ->
  play_Bar channel [x] s1 = (Raise e, s2) ->
  play_Bar channel (before ++ x :: after) s = (Raise e, s2)
  /\ extends s1 s2.
Proof.
  intros Hbefore Hx. split.
  - apply (for_each_raise_after _ before x after e s s1 s2 Hbefore).
    now apply for_each_single.
  - pose proof (appends_only_play_Bar channel [x] s1) as H.
    now rewrite Hx in H.
Qed.

Lemma play_Track_raise_after (channel : Z) (instr : option Z)
    (before : list Bar) (b : Bar) (after : list Bar) (e : exn)
    (s s1 s2 : MidiTrack) :
  play_Track channel (mkTrack instr before) s = (Ok tt, s1) ->
  play_Bar channel b s1 = (Raise e, s2) ->
  play_Track channel (mkTrack instr (before ++ b :: after)) s
  = (Raise e, s2)
  /\ extends s1 s2.
Proof.
  intros Hbefore Hb. split.
  - unfold play_Track in *. cbn [instrument_nr track_bars] in *.
    unfold bind at 1. unfold bind at 1 in Hbefore.
    unfold modify at 1. unfold modify at 1 in Hbefore.
    unfold bind at 1. unfold bind at 1 in Hbefore.
    destruct (match instr with
              | Some nr => set_instrument channel nr 1
              | None => ret tt
              end (with_delay s 0)) as [[[]|e0] s0]; [|discriminate].
    now apply (for_each_raise_after _ before b after e s0 s1 s2).
  - pose proof (appends_only_play_Bar channel b s1) as H.
    now rewrite Hb in H.
Qed.

End FailureFacts.

(** * The properties of the specification *)

Import Py PyFacts VlqFacts EventFacts ConverterFacts BarFacts ChunkFacts.
Import AppendFacts OperationFacts FailureFacts.

(** Closes a validity condition on concrete numbers. *)
Ltac valid_here :=
  unfold valid_channel, valid_note, is_byte, note_velocity;
  cbn [note_int dynamics_velocity]; lia.

(** C1.  For every [v] from 0 to 2097151, [int_to_varbyte v] is the
    canonical variable-length quantity of [v]: the base-128 digits of [v],
    most significant first and no more of them than [v] needs, every byte
    but the last with the continuation bit set and the last with it clear,
    so that a reader of the format gets [v] back (and stops at the end of
    the encoding); for [v = 0] it is the single byte 0. *)
Theorem int_to_varbyte_canonical (v : Z) :
  0 <= v <= 2097151 ->
  int_to_varbyte v = Ok (encode_vlq v)
  /\ (let n := length (encode_vlq v) in
      v < 128 ^ Z.of_nat n /\ (n = 1%nat \/ 128 ^ (Z.of_nat n - 1) <= v))
  /\ Forall (fun b => is_byte b /\ Z.testbit b 7 = true)
            (removelast (encode_vlq v))
  /\ (is_byte (last (encode_vlq v) 0)
      /\ Z.testbit (last (encode_vlq v) 0) 7 = false)
  /\ (forall rest, decode_vlq (encode_vlq v ++ rest) = Some (v, rest))
  /\ (v = 0 -> int_to_varbyte v = Ok [0]).
Proof.
  intros Hv. split; [apply int_to_varbyte_encode_vlq|].
  assert (Hlow : 0 <= v mod 128 < 128) by (apply Z.mod_pos_bound; lia).
  assert (Hmid : 0 <= (v / 128) mod 128 < 128)
    by (apply Z.mod_pos_bound; lia).
  destruct (Z.lt_ge_cases v 128) as [H1|H1];
    [|destruct (Z.lt_ge_cases v 16384) as [H2|H2]].
  - (* one digit *)
    rewrite encode_vlq_1 by lia. cbn [length removelast last app].
    destruct (flag_clear v ltac:(lia)) as [Hbit Hland].
    split; [split; [change (128 ^ Z.of_nat 1) with 128; lia | now left]|].
    split; [constructor|].
    split; [unfold is_byte; split; [lia | exact Hbit]|].
    split.
    + intros rest. unfold decode_vlq. cbn [decode_vlq_from].
      now rewrite Hbit, Hland.
    + now intros ->.
  - (* two digits *)
    rewrite encode_vlq_2 by lia. cbn [length removelast last app].
    assert (Hq : 0 <= v / 128 < 128)
      by (split; [apply Z.div_pos; lia | apply Z.div_lt_upper_bound; lia]).
    destruct (flag_set (v / 128) Hq) as [Hbit1 Hland1].
    destruct (flag_clear (v mod 128) Hlow) as [Hbit0 Hland0].
    split; [split; [change (128 ^ Z.of_nat 2) with 16384; lia
                   | right; change (128 ^ (Z.of_nat 2 - 1)) with 128; lia]|].
    split; [repeat constructor; unfold is_byte; try lia; assumption|].
    split; [unfold is_byte; split; [lia | exact Hbit0]|].
    split.
    + intros rest. unfold decode_vlq. cbn [decode_vlq_from].
      rewrite Hbit1, Hland1, Hbit0, Hland0. do 2 f_equal.
      pose proof (Z.div_mod v 128 ltac:(lia)). lia.
    + intros ->. lia.
  - (* three digits *)
    rewrite encode_vlq_3 by lia. cbn [length removelast last app].
    assert (Hq : 0 <= v / 16384 < 128)
      by (split; [apply Z.div_pos; lia | apply Z.div_lt_upper_bound; lia]).
    destruct (flag_set (v / 16384) Hq) as [Hbit2 Hland2].
    destruct (flag_set ((v / 128) mod 128) Hmid) as [Hbit1 Hland1].
    destruct (flag_clear (v mod 128) Hlow) as [Hbit0 Hland0].
    split; [split; [change (128 ^ Z.of_nat 3) with 2097152; lia
                   | right; change (128 ^ (Z.of_nat 3 - 1)) with 16384; lia]|].
    split; [repeat constructor; unfold is_byte; try lia; assumption|].
    split; [unfold is_byte; split; [lia | exact Hbit0]|].
    split.
    + intros rest. unfold decode_vlq. cbn [decode_vlq_from].
      rewrite Hbit2, Hland2, Hbit1, Hland1, Hbit0, Hland0.
      do 2 f_equal.
      pose proof (Z.div_mod v 128 ltac:(lia)) as E1.
      pose proof (Z.div_mod (v / 128) 128 ltac:(lia)) as E2.
      rewrite Z.div_div in E2 by lia. change (128 * 128) with 16384 in E2.
      lia.
    + intros ->. lia.
Qed.

Lemma int_to_varbyte_canonical_witness :
  0 <= 300 <= 2097151
  /\ int_to_varbyte 300 = Ok [130; 44]
  /\ decode_vlq ([130; 44] ++ [9]) = Some (300, [9]).
Proof.
  split; [lia|].
  destruct (int_to_varbyte_canonical 300 ltac:(lia))
    as [Henc [_ [_ [_ [Hdec _]]]]].
  split; [exact Henc | exact (Hdec [9])].
Defined.

(** C2.  A note container of two or more notes: [play_NoteContainer] emits
    the note-on of the first note after the pending delta-time and the
    note-on of every further note after the delta-time 0, in whichever
    order the notes come; [stop_NoteContainer] does the same with
    note-offs.  An empty container appends nothing, and a container of one
    note emits that note after the pending delta-time. *)
Theorem chord_delta_time_rule (channel : Z) (self : MidiTrack)
    (first second : Note) (rest : list Note) :
  valid_channel channel ->
  valid_note first -> valid_note second -> Forall valid_note rest ->
  play_NoteContainer channel (first :: second :: rest) self
  = (Ok tt,
     mkMidiTrack
       (track_data self
        ++ (delta_time self ++ note_on_bytes channel first)
        ++ concat (map (fun n => 0 :: note_on_bytes channel n)
                       (second :: rest)))
       [0] (delay self) (bpm self))
  /\ stop_NoteContainer channel (first :: second :: rest) self
     = (Ok tt,
        mkMidiTrack
          (track_data self
           ++ (delta_time self ++ note_off_bytes channel first)
           ++ concat (map (fun n => 0 :: note_off_bytes channel n)
                          (second :: rest)))
          [0] (delay self) (bpm self))
  /\ play_NoteContainer channel [second; first] self
     = (Ok tt,
        mkMidiTrack
          (track_data self
           ++ (delta_time self ++ note_on_bytes channel second)
           ++ 0 :: note_on_bytes channel first)
          [0] (delay self) (bpm self))
  /\ play_NoteContainer channel [] self = (Ok tt, self)
  /\ stop_NoteContainer channel [] self = (Ok tt, self)
  /\ play_NoteContainer channel [first] self
     = (Ok tt,
        with_track_data self
          (track_data self ++ delta_time self ++ note_on_bytes channel first))
  /\ stop_NoteContainer channel [first] self
     = (Ok tt,
        with_track_data self
          (track_data self ++ delta_time self
           ++ note_off_bytes channel first)).
Proof.
  intros Hc H1 H2 Hrest.
  assert (Hall : Forall valid_note (first :: second :: rest))
    by (constructor; [assumption | constructor; assumption]).
  split; [exact (play_NoteContainer_ok channel _ self Hc Hall)|].
  split; [exact (stop_NoteContainer_ok channel _ self Hc Hall)|].
  split.
  { rewrite play_NoteContainer_ok
      by (try assumption; repeat (constructor; [assumption|]); constructor).
    cbn [chord_bytes chord_delta_after map concat].
    now rewrite app_nil_r. }
  split; [reflexivity|]. split; [reflexivity|].
  split.
  - rewrite play_NoteContainer_ok
      by (try assumption; repeat (constructor; [assumption|]); constructor).
    cbn [chord_bytes chord_delta_after map concat].
    destruct self. unfold with_track_data.
    cbn [track_data delta_time delay bpm]. now rewrite app_nil_r.
  - rewrite stop_NoteContainer_ok
      by (try assumption; repeat (constructor; [assumption|]); constructor).
    cbn [chord_bytes chord_delta_after map concat].
    destruct self. unfold with_track_data.
    cbn [track_data delta_time delay bpm]. now rewrite app_nil_r.
Qed.

Lemma chord_delta_time_rule_witness :
  play_NoteContainer 0 [mkNote 48 None; mkNote 52 (Some 100)]
    (mkMidiTrack [] [129; 0] 0 120)
  = (Ok tt,
     mkMidiTrack [129; 0; 144; 60; 64; 0; 144; 64; 100] [0] 0 120).
Proof.
  exact (proj1 (chord_delta_time_rule 0 (mkMidiTrack [] [129; 0] 0 120)
                  (mkNote 48 None) (mkNote 52 (Some 100)) []
                  ltac:(valid_here) ltac:(valid_here) ltac:(valid_here)
                  ltac:(constructor))).
Defined.

(** C3.  [play_Bar] takes the beats in order, each of
    [tick = round(288 / value)] ticks.  A beat whose notes are [None] or
    empty adds [tick] to the delay and emits nothing.  A beat with notes
    emits their note-ons, the first after the delay accumulated so far
    (and the delay becomes 0), then their note-offs, the first after
    [tick].  A quarter rest followed by a quarter note, on an object with
    no delay pending, emits the note-on after the delta-time 72. *)
Theorem play_Bar_beats (channel : Z) (self : MidiTrack) (bar : Bar)
    (pos value : Z) (notes : NoteContainer) (note : Note) :
  valid_channel channel -> 0 < value ->
  notes <> [] -> Forall valid_note notes -> valid_note note ->
  0 <= delay self <= 2097151 ->
  let tick := Py.round_div 288 value in
  576 - value < 2 * value * tick <= 576 + value
  /\ play_Bar channel (mkBeat pos value None :: bar) self
     = play_Bar channel bar (with_delay self (delay self + tick))
  /\ play_Bar channel (mkBeat pos value (Some []) :: bar) self
     = play_Bar channel bar (with_delay self (delay self + tick))
  /\ play_Bar channel (mkBeat pos value (Some notes) :: bar) self
     = play_Bar channel bar
         (mkMidiTrack
            (track_data self
             ++ chord_bytes (note_on_bytes channel)
                            (encode_vlq (delay self)) notes
             ++ chord_bytes (note_off_bytes channel) (encode_vlq tick) notes)
            (chord_delta_after (encode_vlq tick) notes)
            0 (bpm self))
  /\ int_to_varbyte tick = Ok (encode_vlq tick)
  /\ (delay self = 0 ->
      play_Bar channel [mkBeat pos 4 None; mkBeat pos 4 (Some [note])] self
      = (Ok tt,
         mkMidiTrack
           (track_data self
            ++ (72 :: note_on_bytes channel note)
            ++ (72 :: note_off_bytes channel note))
           [72] 0 (bpm self))).
Proof.
  intros Hc Hv Hne Hnotes Hnote Hd tick.
  split; [apply tick_nearest; assumption|].
  split.
  { apply play_Bar_cons, play_Bar_beat_rest; cbn; [lia | now left]. }
  split.
  { apply play_Bar_cons, play_Bar_beat_rest; cbn; [lia | now right]. }
  split.
  { apply play_Bar_cons.
    rewrite (play_Bar_beat_sounding channel _ notes); cbn [beat_value beat_notes];
      try assumption; try reflexivity; lia. }
  split; [apply int_to_varbyte_encode_vlq|].
  intros Hzero.
  rewrite (play_Bar_cons channel _ _ self (with_delay self (delay self + 72)))
    by (apply play_Bar_beat_rest; cbn; [lia | now left]).
  assert (E : play_Bar_beat channel (mkBeat pos 4 (Some [note]))
                (with_delay self (delay self + 72))
              = (Ok tt,
                 after_sounding_beat (with_delay self (delay self + 72))
                   channel 72 [note])).
  { exact (play_Bar_beat_sounding channel (mkBeat pos 4 (Some [note]))
             [note] _ Hc ltac:(cbn; lia) eq_refl ltac:(discriminate)
             ltac:(constructor; [assumption | constructor])). }
  rewrite (play_Bar_cons channel _ [] _ _ E).
  unfold after_sounding_beat, play_Bar. cbn [for_each ret].
  cbn [with_delay track_data delta_time delay bpm].
  rewrite Hzero. cbn [Z.add].
  rewrite (encode_vlq_1 72) by lia.
  cbn [chord_bytes chord_delta_after map concat app].
  now rewrite !app_nil_r.
Qed.

Lemma play_Bar_beats_witness :
  play_Bar 0 [mkBeat 0 4 None; mkBeat 1 4 (Some [mkNote 48 None])]
    (mkMidiTrack [] [0] 0 120)
  = (Ok tt, mkMidiTrack [72; 144; 60; 64; 72; 128; 60; 64] [72] 0 120).
Proof.
  etransitivity; [exact (proj1 (proj2
    (play_Bar_beats 0 (mkMidiTrack [] [0] 0 120)
       [mkBeat 1 4 (Some [mkNote 48 None])] 0 4
       [mkNote 48 None] (mkNote 48 None)
       ltac:(valid_here) ltac:(lia) ltac:(discriminate)
       ltac:(constructor; [valid_here | constructor])
       ltac:(valid_here) ltac:(simpl; lia))))|].
  reflexivity.
Defined.

(** C4.  With [N] bytes in [track_data] (and [N + 4] small enough for four
    bytes), [get_midi_data] returns the tag [MTrk], the four big-endian
    bytes of [N + 4], the [N] bytes of [track_data] and the end-of-track
    event 00 FF 2F 00, and nothing else. *)
Theorem get_midi_data_chunk (self : MidiTrack) :
  let N := Z.of_nat (length (track_data self)) in
  N + 4 < 4294967296 ->
  get_midi_data self
  = Ok ([77; 84; 114; 107] ++ big_endian_4 (N + 4)
        ++ track_data self ++ [0; 255; 47; 0])
  /\ length (big_endian_4 (N + 4)) = 4%nat
  /\ Forall is_byte (big_endian_4 (N + 4))
  /\ big_endian_value (big_endian_4 (N + 4)) = N + 4.
Proof.
  intros N HN.
  assert (Hrange : 0 <= N + 4 < 4294967296) by (subst N; lia).
  split; [|split; [reflexivity|split]].
  - unfold get_midi_data, header.
    change (Z.of_nat (length end_of_track)) with 4. fold N.
    rewrite a2b_hex_08x by assumption.
    cbn [rbind]. unfold end_of_track. now rewrite <- app_assoc.
  - apply big_endian_4_bytes.
  - now apply big_endian_4_value.
Qed.

Lemma get_midi_data_chunk_witness :
  get_midi_data (mkMidiTrack [0; 144; 60; 64] [0] 0 120)
  = Ok [77; 84; 114; 107; 0; 0; 0; 8; 0; 144; 60; 64; 0; 255; 47; 0].
Proof.
  exact (proj1 (get_midi_data_chunk (mkMidiTrack [0; 144; 60; 64] [0] 0 120)
                  ltac:(simpl; lia))).
Defined.

(** C5.  With the event type and the channel in 0..15 and the parameters
    in 0..255, [midi_event] returns the current delta-time bytes, then one
    status byte with the event type in its high nibble and the channel in
    its low nibble, then [param1] and, when given, [param2], one byte
    each.  With delta-time 00, type 9, channel 0 and parameters 60 and 64
    the bytes are 00 90 3C 40. *)
Theorem midi_event_packing (self : MidiTrack) (event_type channel param1 : Z)
    (param2 : option Z) :
  0 <= event_type < 16 -> 0 <= channel < 16 ->
  is_byte param1 -> (forall p2, param2 = Some p2 -> is_byte p2) ->
  midi_event self event_type channel param1 param2
  = Ok (delta_time self
        ++ [status_byte event_type channel]
        ++ param1 :: match param2 with Some p2 => [p2] | None => [] end)
  /\ is_byte (status_byte event_type channel)
  /\ Z.shiftr (status_byte event_type channel) 4 = event_type
  /\ Z.land (status_byte event_type channel) 15 = channel
  /\ midi_event (with_delta_time self [0]) 9 0 60 (Some 64)
     = Ok [0; 144; 60; 64].
Proof.
  intros He Hc H1 H2.
  split; [now apply midi_event_ok|].
  unfold status_byte, is_byte.
  split; [lia|]. split; [|split].
  - rewrite Z.shiftr_div_pow2 by lia. change (2 ^ 4) with 16.
    symmetry. apply (Z.div_unique _ 16 event_type channel); lia.
  - change 15 with (Z.ones 4). rewrite Z.land_ones by lia.
    change (2 ^ 4) with 16.
    symmetry. apply (Z.mod_unique _ 16 event_type channel); lia.
  - reflexivity.
Qed.

Lemma midi_event_packing_witness :
  midi_event (mkMidiTrack [] [129; 0] 0 120) 12 3 41 None
  = Ok [129; 0; 195; 41].
Proof.
  exact (proj1 (midi_event_packing (mkMidiTrack [] [129; 0] 0 120) 12 3 41
                  None ltac:(lia) ltac:(lia) ltac:(valid_here)
                  ltac:(discriminate))).
Defined.

(** C6.  An event type from 16 to 127 passes both assertions of
    [midi_event], after which the three hexadecimal digits of type and
    channel are refused by [a2b_hex]: the call raises a [TypeError] and
    returns no event.  Event type 128 fails the assertion. *)
Theorem midi_event_two_digit_type_raises (self : MidiTrack) :
  midi_event self 16 0 60 (Some 64) = Raise TypeError
  /\ midi_event self 127 15 60 None = Raise TypeError
  /\ midi_event self 15 0 60 (Some 64)
     = Ok (delta_time self ++ [240; 60; 64])
  /\ midi_event self 128 0 60 (Some 64) = Raise AssertionError.
Proof. repeat split; reflexivity. Qed.

(** C8.  On channel 1, for a track without bars whose instrument has the
    program number 5, [play_Track] emits a controller event with status
    byte B0 (channel 0), controller number 1 (the channel) and value 1, and
    then the program change C1 05: [select_bank] hands [BANK_SELECT] to
    [controller_event] in the place of the channel and the channel in the
    place of the controller number. *)
Theorem play_Track_bank_select_bytes (self : MidiTrack) :
  play_Track 1 (mkTrack (Some 5) []) self
  = (Ok tt,
     mkMidiTrack
       ((track_data self ++ (delta_time self ++ [176; 1; 1]))
        ++ (delta_time self ++ [193; 5]))
       (delta_time self) 0 (bpm self))
  /\ select_bank self 1 1 = midi_event self CONTROLLER BANK_SELECT 1 (Some 1)
  /\ play_Track 1 (mkTrack None []) self = (Ok tt, with_delay self 0).
Proof.
  split; [|split; reflexivity].
  destruct self as [td dt d b]. vm_compute. reflexivity.
Qed.

(** C7, as the code has it.  [MidiTrack(120)] leaves in [track_data]
    exactly one tempo event, 00 FF 51 03 07 A1 20, whose last three bytes
    are 60000000 / 120 = 500000 in big-endian order; after any sequence of
    later calls without [reset], successful or not, [track_data] still
    begins with these bytes. *)
Theorem tempo_prefix_kept_without_reset (ops : list operation) :
  Forall (fun o => o <> Do_reset) ops ->
  init 120 = (Ok tt, mkMidiTrack [0; 255; 81; 3; 7; 161; 32] [0] 0 120)
  /\ big_endian_value [7; 161; 32] = 60000000 / 120
  /\ 60000000 / 120 = 500000
  /\ begins_with_tempo (run_all ops (snd (init 120))).
Proof.
  intros Hops. split; [reflexivity|]. split; [reflexivity|].
  split; [reflexivity|].
  destruct (run_all_extends ops (snd (init 120)) Hops) as [more Hmore].
  exists more. exact Hmore.
Qed.

Lemma tempo_prefix_kept_without_reset_witness :
  begins_with_tempo
    (run_all [Do_play_Note 0 (mkNote 48 None); Do_set_tempo 90;
              Do_play_Note 16 (mkNote 48 None)]
       (snd (init 120))).
Proof.
  exact (proj2 (proj2 (proj2
    (tempo_prefix_kept_without_reset
       [Do_play_Note 0 (mkNote 48 None); Do_set_tempo 90;
        Do_play_Note 16 (mkNote 48 None)]
       ltac:(repeat (constructor; [discriminate|]); constructor))))).
Defined.

(** C7, as stated, fails: after [reset] the buffer is empty and begins
    with no tempo event. *)
Lemma tempo_prefix_lost_by_reset :
  track_data (run_all [Do_reset] (snd (init 120))) = []
  /\ ~ (forall ops, begins_with_tempo (run_all ops (snd (init 120)))).
Proof.
  split; [reflexivity|].
  intros H. destruct (H [Do_reset]) as [rest Hrest].
  discriminate Hrest.
Qed.

(** C9, as the code has it.  [play_Note] and [stop_Note] either append one
    whole event or raise and leave the object as it was.  The calls on
    containers, bars and tracks append event by event and take nothing
    back: whether such a call returns or raises, the bytes that were in
    [track_data] stay in place and are only followed by more.  When a note
    of a container raises after notes that are valid, the call raises that
    error with the events of all the notes before it appended (the first
    after the pending delta-time, the others after 0).  When a beat of a
    bar, or a bar of a track, raises after beats (bars) that succeeded,
    the call raises with the object as the failing beat (bar) left it,
    which holds all that the earlier ones appended. *)
Theorem note_atomic_containers_append_only (channel : Z) (note : Note)
    (notes : NoteContainer) (bar : Bar) (track : Track) (s : MidiTrack) :
  ((exists ev,
      note_on s channel (note_int note + 12) (note_velocity note) = Ok ev
      /\ play_Note channel note s
         = (Ok tt, with_track_data s (track_data s ++ ev)))
   \/ (exists e, play_Note channel note s = (Raise e, s)))
  /\ ((exists ev,
         note_off s channel (note_int note + 12) (note_velocity note) = Ok ev
         /\ stop_Note channel note s
            = (Ok tt, with_track_data s (track_data s ++ ev)))
      \/ (exists e, stop_Note channel note s = (Raise e, s)))
  /\ extends s (snd (play_NoteContainer channel notes s))
  /\ extends s (snd (stop_NoteContainer channel notes s))
  /\ extends s (snd (play_Bar channel bar s))
  /\ extends s (snd (play_Track channel track s))
  /\ (forall before bad after e,
        valid_channel channel -> Forall valid_note before ->
        note_on s channel (note_int bad + 12) (note_velocity bad) = Raise e ->
        play_NoteContainer channel (before ++ bad :: after) s
        = (Raise e,
           mkMidiTrack
             (track_data s
              ++ chord_bytes (note_on_bytes channel) (delta_time s) before)
             (match before with [] => delta_time s | _ :: _ => [0] end)
             (delay s) (bpm s)))
  /\ (forall before bad after e,
        valid_channel channel -> Forall valid_note before ->
        note_off s channel (note_int bad + 12) (note_velocity bad) = Raise e ->
        stop_NoteContainer channel (before ++ bad :: after) s
        = (Raise e,
           mkMidiTrack
             (track_data s
              ++ chord_bytes (note_off_bytes channel) (delta_time s) before)
             (match before with [] => delta_time s | _ :: _ => [0] end)
             (delay s) (bpm s)))
  /\ (forall before x after e s1 s2,
        play_Bar channel before s = (Ok tt, s1) ->
        play_Bar channel [x] s1 = (Raise e, s2) ->
        play_Bar channel (before ++ x :: after) s = (Raise e, s2)
        /\ extends s1 s2)
  /\ (forall instr before b after e s1 s2,
        play_Track channel (mkTrack instr before) s = (Ok tt, s1) ->
        play_Bar channel b s1 = (Raise e, s2) ->
        play_Track channel (mkTrack instr (before ++ b :: after)) s
        = (Raise e, s2)
        /\ extends s1 s2).
Proof.
  split; [|split].
  - unfold play_Note.
    destruct (note_on s channel (note_int note + 12) (note_velocity note))
      as [ev|e] eqn:E.
    + left. exists ev. split; [reflexivity|]. now apply append_track_data_Ok.
    + right. exists e. now apply append_track_data_Raise.
  - unfold stop_Note.
    destruct (note_off s channel (note_int note + 12) (note_velocity note))
      as [ev|e] eqn:E.
    + left. exists ev. split; [reflexivity|]. now apply append_track_data_Ok.
    + right. exists e. now apply append_track_data_Raise.
  - split; [apply appends_only_play_NoteContainer|].
    split; [apply appends_only_stop_NoteContainer|].
    split; [apply appends_only_play_Bar|].
    split; [apply appends_only_play_Track|].
    split; [intros; now apply play_NoteContainer_raise|].
    split; [intros; now apply stop_NoteContainer_raise|].
    split.
    + intros before x after e s1 s2. apply play_Bar_raise_after.
    + intros instr before b after e s1 s2. apply play_Track_raise_after.
Qed.

Lemma note_atomic_containers_append_only_witness :
  play_NoteContainer 0
    ([mkNote 48 None; mkNote 52 None] ++ mkNote 300 None :: [mkNote 55 None])
    (mkMidiTrack [1] [72] 0 120)
  = (Raise TypeError,
     mkMidiTrack [1; 72; 144; 60; 64; 0; 144; 64; 64] [0] 0 120)
  /\ play_Bar 0
       ([mkBeat 0 4 (Some [mkNote 48 None])] ++ mkBeat 1 0 None :: [])
       (mkMidiTrack [1] [0] 0 120)
     = (Raise ZeroDivisionError,
        mkMidiTrack [1; 0; 144; 60; 64; 72; 128; 60; 64] [72] 0 120).
Proof.
  split.
  - exact (proj1 (proj2 (proj2 (proj2 (proj2 (proj2 (proj2
      (note_atomic_containers_append_only 0 (mkNote 48 None) [] []
         (mkTrack None []) (mkMidiTrack [1] [72] 0 120))))))))
      [mkNote 48 None; mkNote 52 None] (mkNote 300 None) [mkNote 55 None]
      TypeError ltac:(valid_here)
      ltac:(repeat (constructor; [valid_here|]); constructor)
      eq_refl).
  - exact (proj1 (proj1 (proj2 (proj2 (proj2 (proj2 (proj2 (proj2 (proj2
      (proj2
      (note_atomic_containers_append_only 0 (mkNote 48 None) [] []
         (mkTrack None []) (mkMidiTrack [1] [0] 0 120))))))))))
      [mkBeat 0 4 (Some [mkNote 48 None])] (mkBeat 1 0 None) []
      ZeroDivisionError
      (mkMidiTrack [1; 0; 144; 60; 64; 72; 128; 60; 64] [72] 0 120)
      (mkMidiTrack [1; 0; 144; 60; 64; 72; 128; 60; 64] [72] 0 120)
      eq_refl eq_refl)).
Defined.

(** C9, as stated, fails: a note container whose second note does not fit
    a byte raises after the first note has been appended, and a bar whose
    second beat has the note value 0 raises after the events of the first
    beat have been appended. *)
Lemma partial_append_on_failure :
  play_NoteContainer 0 [mkNote 48 None; mkNote 300 None] (snd (init 120))
  = (Raise TypeError,
     mkMidiTrack ([0; 255; 81; 3; 7; 161; 32] ++ [0; 144; 60; 64])
       [0] 0 120)
  /\ ~ atomic_call
         (play_NoteContainer 0 [mkNote 48 None; mkNote 300 None])
         (snd (init 120))
  /\ play_Bar 0 [mkBeat 0 4 (Some [mkNote 48 None]);
                 mkBeat 1 0 (Some [mkNote 48 None])] (snd (init 120))
     = (Raise ZeroDivisionError,
        mkMidiTrack ([0; 255; 81; 3; 7; 161; 32]
                     ++ [0; 144; 60; 64; 72; 128; 60; 64])
          [72] 0 120)
  /\ ~ atomic_call
         (play_Bar 0 [mkBeat 0 4 (Some [mkNote 48 None]);
                      mkBeat 1 0 (Some [mkNote 48 None])])
         (snd (init 120)).
Proof.
  split; [reflexivity|]. split; [|split; [reflexivity|]].
  - unfold atomic_call.
    change (play_NoteContainer 0 [mkNote 48 None; mkNote 300 None]
              (snd (init 120)))
      with (@Raise unit TypeError,
            mkMidiTrack ([0; 255; 81; 3; 7; 161; 32] ++ [0; 144; 60; 64])
              [0] 0 120).
    cbn. discriminate.
  - unfold atomic_call.
    change (play_Bar 0 [mkBeat 0 4 (Some [mkNote 48 None]);
                        mkBeat 1 0 (Some [mkNote 48 None])] (snd (init 120)))
      with (@Raise unit ZeroDivisionError,
            mkMidiTrack ([0; 255; 81; 3; 7; 161; 32]
                         ++ [0; 144; 60; 64; 72; 128; 60; 64])
              [72] 0 120).
    cbn. discriminate.
Qed.

(** C10.  [reset] empties [track_data] and sets [delta_time] to the single
    byte 00; the delay and the tempo stay as they were.  So the first
    sounding beat that [play_Bar] converts after a [reset] still comes
    after the delay that was pending before it. *)
Theorem reset_keeps_delay (self : MidiTrack) (channel pos value : Z)
    (notes : NoteContainer) :
  valid_channel channel -> 0 < value ->
  notes <> [] -> Forall valid_note notes ->
  0 <= delay self <= 2097151 ->
  reset self = (Ok tt, mkMidiTrack [] [0] (delay self) (bpm self))
  /\ play_Bar channel [mkBeat pos value (Some notes)] (snd (reset self))
     = (Ok tt,
        mkMidiTrack
          (chord_bytes (note_on_bytes channel) (encode_vlq (delay self)) notes
           ++ chord_bytes (note_off_bytes channel)
                (encode_vlq (Py.round_div 288 value)) notes)
          (chord_delta_after (encode_vlq (Py.round_div 288 value)) notes)
          0 (bpm self))
  /\ int_to_varbyte (delay self) = Ok (encode_vlq (delay self)).
Proof.
  intros Hc Hv Hne Hnotes Hd.
  split; [reflexivity|]. split; [|apply int_to_varbyte_encode_vlq].
  rewrite (play_Bar_cons channel _ [] _ _
             (play_Bar_beat_sounding channel
                (mkBeat pos value (Some notes)) notes (snd (reset self))
                Hc ltac:(cbn; lia) eq_refl Hne Hnotes)).
  reflexivity.
Qed.

Lemma reset_keeps_delay_witness :
  play_Bar 2 [mkBeat 0 8 (Some [mkNote 48 None])]
    (snd (reset (mkMidiTrack [1; 2; 3] [5] 300 120)))
  = (Ok tt, mkMidiTrack [130; 44; 146; 60; 64; 36; 130; 60; 64] [36] 0 120).
Proof.
  exact (proj1 (proj2
    (reset_keeps_delay (mkMidiTrack [1; 2; 3] [5] 300 120) 2 0 8
       [mkNote 48 None]
       ltac:(valid_here) ltac:(lia) ltac:(discriminate)
       ltac:(constructor; [valid_here | constructor])
       ltac:(simpl; lia)))).
Defined.

(** * Further properties of the code *)

(** ** More on the library functions and on events *)

Module MoreFacts.
Import Py PyFacts VlqFacts EventFacts.

(** [a2b_hex] raises nothing but [TypeError]. *)
Lemma a2b_hex_raises_aux (s : list ascii) :
  (forall e, a2b_hex s = Raise e -> e = TypeError)
  /\ (forall c e, a2b_hex (c :: s) = Raise e -> e = TypeError).
Proof.
  induction s as [|x s [IH1 IH2]].
  - split; [discriminate|]. intros c e [= <-]. reflexivity.
  - split; [apply IH2|].
    intros c e. cbn [a2b_hex].
    destruct (unhex c); [|now intros [= <-]].
    destruct (unhex x); [|now intros [= <-]].
    destruct (a2b_hex s) as [bs|e'] eqn:E; [discriminate|].
    intros [= <-]. now apply IH1.
Qed.

Lemma a2b_hex_raises (s : list ascii) (e : exn) :
  a2b_hex s = Raise e -> e = TypeError.
Proof. apply a2b_hex_raises_aux. Qed.

(** Past its assertions, [midi_event] returns an event or raises
    [TypeError]. *)
Lemma midi_event_past_asserts (self : MidiTrack) (event_type channel p1 : Z)
    (param2 : option Z) :
  0 <= event_type < 128 -> 0 <= channel < 16 ->
  (exists ev, midi_event self event_type channel p1 param2 = Ok ev)
  \/ midi_event self event_type channel p1 param2 = Raise TypeError.
Proof.
  intros He Hc. unfold midi_event.
  destruct (asserts_pass event_type channel He Hc) as [-> ->]. cbn [negb].
  destruct (a2b_hex (format_x 0 event_type ++ format_x 0 channel))
    as [tc|e] eqn:E1.
  - rewrite rbind_Ok.
    destruct (match param2 with
              | Some p2 => a2b_hex (format_x 2 p1 ++ format_x 2 p2)
              | None => a2b_hex (format_x 2 p1)
              end) as [ps|e] eqn:E2.
    + left. eexists. reflexivity.
    + right. cbn [rbind]. f_equal.
      destruct param2; now apply a2b_hex_raises in E2.
  - right. cbn [rbind]. f_equal. now apply a2b_hex_raises in E1.
Qed.

Lemma hex_abs_nonempty (n : Z) : hex_abs n <> [].
Proof.
  unfold hex_abs. cbn [hex_rev].
  destruct (n <? 16); cbn [rev]; intros H; now apply app_eq_nil in H.
Qed.

(** The formatted text of a negative number starts with a minus sign and
    has at least one more character. *)
Lemma format_x_negative (width : nat) (n : Z) :
  n < 0 -> exists c rest, format_x width n = "-"%char :: c :: rest.
Proof.
  intros Hn. unfold format_x. destruct (Z.ltb_spec n 0); [|lia].
  unfold zero_pad.
  destruct (repeat "0"%char (width - 1 - length (hex_abs (- n)))
            ++ hex_abs (- n)) as [|c rest] eqn:E.
  - apply app_eq_nil in E. destruct E as [_ E].
    now apply hex_abs_nonempty in E.
  - now exists c, rest.
Qed.

Lemma a2b_hex_minus (c : ascii) (rest : list ascii) :
  a2b_hex ("-"%char :: c :: rest) = Raise TypeError.
Proof. reflexivity. Qed.

(** ["%02x"] of a number from 256 to 4095 has three digits. *)
Lemma format_x_three_digits (n : Z) :
  256 <= n < 4096 -> length (format_x 2 n) = 3%nat.
Proof.
  intros Hn.
  pose (f := fun n => (n <? 256) || (length (format_x 2 n) =? 3)%nat).
  assert (H : f n = true)
    by (apply (forallb_range f 4096); [vm_compute; reflexivity | lia]).
  unfold f in H. destruct (Z.ltb_spec n 256); [lia|].
  now apply Nat.eqb_eq in H.
Qed.

Lemma format_x_byte_length (p : Z) :
  is_byte p -> length (format_x 2 p) = 2%nat.
Proof.
  unfold is_byte. intros Hp.
  rewrite format_x_fixed by (change (16 ^ Z.of_nat 2) with 256; lia).
  reflexivity.
Qed.

(** A number of at least [16 ^ k] has more than [k] hexadecimal digits. *)
Lemma hex_rev_length (k : nat) : forall (fuel : nat) (n : Z),
  16 ^ Z.of_nat k <= n -> n < 16 ^ Z.of_nat fuel ->
  (k < length (hex_rev fuel n))%nat.
Proof.
  induction k as [|k IH]; intros fuel n Hlo Hhi.
  - destruct fuel as [|f]; [simpl in *; lia|].
    cbn [hex_rev]. destruct (n <? 16); cbn [length]; lia.
  - rewrite pow16_succ in Hlo.
    assert (0 < 16 ^ Z.of_nat k) by (apply Z.pow_pos_nonneg; lia).
    destruct fuel as [|f]; [simpl in Hhi; lia|].
    rewrite pow16_succ in Hhi.
    cbn [hex_rev]. destruct (Z.ltb_spec n 16); [lia|].
    cbn [length]. apply -> Nat.succ_lt_mono.
    apply IH.
    + apply Z.div_le_lower_bound; lia.
    + apply Z.div_lt_upper_bound; lia.
Qed.

(** ["%02x"] of a number from 4096 to 65535, decoded: two bytes. *)
Lemma a2b_hex_four_digits (n : Z) :
  4096 <= n < 65536 ->
  a2b_hex (format_x 2 n) = Ok [n / 256; n mod 256].
Proof.
  intros Hn.
  assert (Hlen : (3 < length (hex_abs n))%nat).
  { unfold hex_abs. rewrite length_rev.
    apply hex_rev_length; [change (16 ^ Z.of_nat 3) with 4096; lia|].
    apply hex_fuel_enough. lia. }
  assert (E : format_x 2 n = format_x 4 n).
  { unfold format_x, zero_pad. destruct (Z.ltb_spec n 0); [lia|].
    replace (2 - length (hex_abs n))%nat with 0%nat by lia.
    replace (4 - length (hex_abs n))%nat with 0%nat by lia.
    reflexivity. }
  rewrite E.
  rewrite format_x_fixed by (change (16 ^ Z.of_nat 4) with 65536; lia).
  cbn [digits16 map rev app].
  rewrite !a2b_hex_cons2 by (apply Z.mod_pos_bound; lia).
  cbn [a2b_hex rbind]. rewrite !byte_recombine.
  rewrite !Z.div_div by lia. change (16 * 16) with 256.
  rewrite (Z.mod_small (n / 256)); [reflexivity|].
  split; [apply Z.div_pos; lia | apply Z.div_lt_upper_bound; lia].
Qed.

(** Reading back the encoding of a number of at most three digits. *)
Lemma decode_encode_vlq (v : Z) (rest : bytes) :
  0 <= v <= 2097151 -> decode_vlq (encode_vlq v ++ rest) = Some (v, rest).
Proof.
  intros Hv. unfold decode_vlq.
  assert (Hlow : 0 <= v mod 128 < 128) by (apply Z.mod_pos_bound; lia).
  destruct (Z.lt_ge_cases v 128) as [H1|H1];
    [|destruct (Z.lt_ge_cases v 16384) as [H2|H2]].
  - rewrite encode_vlq_1 by lia. cbn [app decode_vlq_from].
    destruct (flag_clear v ltac:(lia)) as [-> ->]. reflexivity.
  - rewrite encode_vlq_2 by lia. cbn [app decode_vlq_from].
    assert (Hq : 0 <= v / 128 < 128)
      by (split; [apply Z.div_pos; lia | apply Z.div_lt_upper_bound; lia]).
    destruct (flag_set (v / 128) Hq) as [-> ->].
    destruct (flag_clear (v mod 128) Hlow) as [-> ->].
    do 2 f_equal. pose proof (Z.div_mod v 128 ltac:(lia)). lia.
  - rewrite encode_vlq_3 by lia. cbn [app decode_vlq_from].
    assert (Hq : 0 <= v / 16384 < 128)
      by (split; [apply Z.div_pos; lia | apply Z.div_lt_upper_bound; lia]).
    assert (Hmid : 0 <= (v / 128) mod 128 < 128)
      by (apply Z.mod_pos_bound; lia).
    destruct (flag_set (v / 16384) Hq) as [-> ->].
    destruct (flag_set ((v / 128) mod 128) Hmid) as [-> ->].
    destruct (flag_clear (v mod 128) Hlow) as [-> ->].
    do 2 f_equal.
    pose proof (Z.div_mod v 128 ltac:(lia)) as E1.
    pose proof (Z.div_mod (v / 128) 128 ltac:(lia)) as E2.
    rewrite Z.div_div in E2 by lia. change (128 * 128) with 16384 in E2.
    lia.
Qed.

End MoreFacts.
Import MoreFacts.

(** X1.  [midi_event] raises [AssertionError] exactly when the event type
    is outside 0..127 or the channel outside 0..15, whatever the
    parameters are: no parameter value fails an assertion. *)
Theorem midi_event_AssertionError_iff (self : MidiTrack)
    (event_type channel param1 : Z) (param2 : option Z) :
  midi_event self event_type channel param1 param2 = Raise AssertionError
  <-> ~ (0 <= event_type < 128 /\ 0 <= channel < 16).
Proof.
  split.
  - intros H [He Hc].
    destruct (midi_event_past_asserts self event_type channel param1 param2
                He Hc) as [[ev Hev] | Hty];
      rewrite H in *; discriminate.
  - apply midi_event_assert.
Qed.

(** X2.  With parameters that fit a byte, [midi_event] returns an event
    exactly when the event type and the channel are both in 0..15; any
    other event type or channel makes it raise. *)
Theorem midi_event_Ok_iff (self : MidiTrack) (event_type channel param1 : Z)
    (param2 : option Z) :
  is_byte param1 -> (forall p2, param2 = Some p2 -> is_byte p2) ->
  (exists ev, midi_event self event_type channel param1 param2 = Ok ev)
  <-> (0 <= event_type < 16 /\ 0 <= channel < 16).
Proof.
  intros H1 H2. split.
  - intros [ev Hev].
    assert (Hin : 0 <= event_type < 128 /\ 0 <= channel < 16).
    { destruct (Z.lt_ge_cases event_type 128), (Z.le_gt_cases 0 event_type),
        (Z.lt_ge_cases channel 16), (Z.le_gt_cases 0 channel);
        try lia;
        rewrite midi_event_assert in Hev by lia; discriminate. }
    destruct Hin as [He Hc]. split; [|exact Hc].
    destruct (Z.lt_ge_cases event_type 16); [lia|].
    rewrite midi_event_wide_type in Hev by lia. discriminate.
  - intros [He Hc]. eexists. now apply midi_event_ok.
Qed.

Lemma midi_event_Ok_iff_witness :
  (exists ev, midi_event class_attributes 14 15 0 (Some 255) = Ok ev)
  /\ ~ (exists ev, midi_event class_attributes 16 15 0 (Some 255) = Ok ev).
Proof.
  split.
  - apply (midi_event_Ok_iff class_attributes 14 15 0 (Some 255)
             ltac:(valid_here)
             ltac:(intros p2 [= <-]; valid_here)).
    lia.
  - intros H.
    apply (midi_event_Ok_iff class_attributes 16 15 0 (Some 255)
             ltac:(valid_here)
             ltac:(intros p2 [= <-]; valid_here)) in H.
    lia.
Defined.

(** X3.  With a valid event type and channel, a first parameter that is
    negative or from 256 to 4095 makes [midi_event] raise [TypeError] (the
    second parameter absent or a byte): its text is no even number of
    hexadecimal digits. *)
Theorem midi_event_param_TypeError (self : MidiTrack)
    (event_type channel param1 : Z) (param2 : option Z) :
  0 <= event_type < 16 -> 0 <= channel < 16 ->
  param1 < 0 \/ 256 <= param1 < 4096 ->
  (forall p2, param2 = Some p2 -> is_byte p2) ->
  midi_event self event_type channel param1 param2 = Raise TypeError.
Proof.
  intros He Hc Hp H2. unfold midi_event.
  destruct (asserts_pass event_type channel) as [-> ->]; [lia | lia |].
  cbn [negb]. rewrite a2b_hex_status by assumption. rewrite rbind_Ok.
  assert (Hps : match param2 with
                | Some p2 => a2b_hex (format_x 2 param1 ++ format_x 2 p2)
                | None => a2b_hex (format_x 2 param1)
                end = Raise TypeError).
  { destruct Hp as [Hneg | Hbig].
    - destruct (format_x_negative 2 param1 Hneg) as [c [rest ->]].
      destruct param2; cbn [app]; apply a2b_hex_minus.
    - destruct param2 as [p2|]; apply a2b_hex_odd.
      + rewrite length_app, format_x_three_digits by assumption.
        now rewrite format_x_byte_length by (now apply H2).
      + now rewrite format_x_three_digits by assumption. }
  now rewrite Hps.
Qed.

Lemma midi_event_param_TypeError_witness :
  midi_event class_attributes 9 0 60 (Some 300) = Raise TypeError
  /\ midi_event class_attributes 9 0 300 (Some 64) = Raise TypeError
  /\ midi_event class_attributes 12 0 (-1) None = Raise TypeError.
Proof.
  split; [reflexivity|]. split.
  - exact (midi_event_param_TypeError class_attributes 9 0 300 (Some 64)
             ltac:(lia) ltac:(lia) ltac:(right; lia)
             ltac:(intros p2 [= <-]; valid_here)).
  - exact (midi_event_param_TypeError class_attributes 12 0 (-1) None
             ltac:(lia) ltac:(lia) ltac:(left; lia)
             ltac:(discriminate)).
Defined.

(** X4.  A single parameter from 4096 to 65535 raises nothing: [midi_event]
    returns an event with two data bytes, the high and the low byte of the
    parameter. *)
Theorem midi_event_wide_param (self : MidiTrack)
    (event_type channel param1 : Z) :
  0 <= event_type < 16 -> 0 <= channel < 16 -> 4096 <= param1 < 65536 ->
  midi_event self event_type channel param1 None
  = Ok (delta_time self
        ++ [status_byte event_type channel; param1 / 256; param1 mod 256]).
Proof.
  intros He Hc Hp. unfold midi_event.
  destruct (asserts_pass event_type channel) as [-> ->]; [lia | lia |].
  cbn [negb]. rewrite a2b_hex_status by assumption. rewrite rbind_Ok.
  now rewrite a2b_hex_four_digits by assumption.
Qed.

Lemma midi_event_wide_param_witness :
  program_change_event class_attributes 2 5000 = Ok [0; 194; 19; 136].
Proof.
  exact (midi_event_wide_param class_attributes 12 2 5000
           ltac:(lia) ltac:(lia) ltac:(lia)).
Defined.

(** X5.  [int_to_varbyte] raises nothing on a negative number: it returns
    the single byte of the number's low seven bits. *)
Theorem int_to_varbyte_negative (v : Z) :
  v < 0 ->
  int_to_varbyte v = Ok [v mod 128]
  /\ 0 <= v mod 128 < 128
  /\ int_to_varbyte v = int_to_varbyte (v mod 128).
Proof.
  intros Hv.
  assert (Hm : 0 <= v mod 128 < 128) by (apply Z.mod_pos_bound; lia).
  assert (E : int_to_varbyte v = Ok [v mod 128]).
  { rewrite int_to_varbyte_encode_vlq. unfold encode_vlq.
    rewrite (digit_count_range v 0) by (simpl; lia). reflexivity. }
  split; [exact E|]. split; [exact Hm|].
  rewrite E, int_to_varbyte_encode_vlq.
  now rewrite encode_vlq_1 by lia.
Qed.

Lemma int_to_varbyte_negative_witness :
  int_to_varbyte (-200) = Ok [56].
Proof.
  exact (proj1 (int_to_varbyte_negative (-200) ltac:(lia))).
Defined.

(** X6.  The encodings of [int_to_varbyte] delimit themselves: when two
    numbers from 0 to 2097151 are each followed by further bytes and the
    two byte strings are equal, the numbers are equal and so are the bytes
    after them.  In particular different numbers have different
    encodings, and none is the beginning of another. *)
Theorem int_to_varbyte_self_delimiting (v1 v2 : Z) (b1 b2 r1 r2 : bytes) :
  0 <= v1 <= 2097151 -> 0 <= v2 <= 2097151 ->
  int_to_varbyte v1 = Ok b1 -> int_to_varbyte v2 = Ok b2 ->
  b1 ++ r1 = b2 ++ r2 ->
  v1 = v2 /\ b1 = b2 /\ r1 = r2.
Proof.
  intros H1 H2 E1 E2 Happ.
  rewrite int_to_varbyte_encode_vlq in E1, E2.
  injection E1 as <-. injection E2 as <-.
  pose proof (decode_encode_vlq v1 r1 H1) as D1.
  pose proof (decode_encode_vlq v2 r2 H2) as D2.
  rewrite Happ, D2 in D1. injection D1 as <- <-. now repeat split.
Qed.

Lemma int_to_varbyte_self_delimiting_witness :
  300 = 300 /\ [130; 44] = [130; 44] /\ [9; 9] = [9; 9].
Proof.
  exact (int_to_varbyte_self_delimiting 300 300 [130; 44] [130; 44]
           [9; 9] [9; 9] ltac:(lia) ltac:(lia) eq_refl eq_refl eq_refl).
Defined.

(** ** Tempo and construction *)

Module TempoFacts.
Import Py PyFacts MoreFacts ConverterFacts.

Lemma a2b_hex_06x (n : Z) :
  0 <= n < 16777216 -> a2b_hex (format_x 6 n) = Ok (big_endian_3 n).
Proof.
  intros Hn.
  rewrite format_x_fixed by (change (16 ^ Z.of_nat 6) with 16777216; lia).
  cbn [digits16 map rev app].
  rewrite !a2b_hex_cons2 by (apply Z.mod_pos_bound; lia).
  cbn [a2b_hex rbind]. rewrite !byte_recombine.
  rewrite !Z.div_div by lia. reflexivity.
Qed.

Lemma big_endian_3_value (n : Z) :
  0 <= n < 16777216 -> big_endian_value (big_endian_3 n) = n.
Proof.
  intros Hn. unfold big_endian_value, big_endian_3. cbn [fold_left].
  Z.to_euclidean_division_equations. lia.
Qed.

Lemma tempo_quotient (bpm0 : Z) :
  4 <= bpm0 -> 0 <= 60000000 / bpm0 < 16777216.
Proof.
  intros Hb. split; [apply Z.div_pos; lia|].
  apply Z.div_lt_upper_bound; lia.
Qed.

Lemma set_tempo_event_ok (self : MidiTrack) (bpm0 : Z) :
  4 <= bpm0 ->
  set_tempo_event self bpm0
  = Ok (delta_time self ++ [255; 81; 3] ++ big_endian_3 (60000000 / bpm0)).
Proof.
  intros Hb. unfold set_tempo_event.
  destruct (Z.eqb_spec bpm0 0); [lia|].
  now rewrite a2b_hex_06x by (now apply tempo_quotient).
Qed.

Lemma set_tempo_event_low (self : MidiTrack) (bpm0 : Z) :
  bpm0 < 4 -> bpm0 <> 0 -> set_tempo_event self bpm0 = Raise TypeError.
Proof.
  intros Hb Hz. unfold set_tempo_event.
  destruct (Z.eqb_spec bpm0 0); [lia|].
  destruct (Z.lt_ge_cases bpm0 0) as [Hneg|Hpos].
  - assert (Hq : 60000000 / bpm0 < 0).
    { pose proof (Z.div_mod 60000000 bpm0 ltac:(lia)).
      pose proof (Z.mod_neg_bound 60000000 bpm0 ltac:(lia)). nia. }
    destruct (format_x_negative 6 _ Hq) as [c [rest ->]].
    now rewrite a2b_hex_minus.
  - assert (Hc : bpm0 = 1 \/ bpm0 = 2 \/ bpm0 = 3) by lia.
    destruct Hc as [-> | [-> | ->]]; reflexivity.
Qed.

Lemma set_tempo_ok (bpm0 : Z) (s : MidiTrack) :
  4 <= bpm0 ->
  set_tempo bpm0 s
  = (Ok tt,
     mkMidiTrack
       (track_data s
        ++ delta_time s ++ [255; 81; 3] ++ big_endian_3 (60000000 / bpm0))
       (delta_time s) (delay s) bpm0).
Proof.
  intros Hb.
  pose proof (set_tempo_event_ok (with_bpm s bpm0) bpm0 Hb) as E.
  apply (append_track_data_Ok
           (fun self => set_tempo_event self (bpm self))) in E.
  unfold set_tempo, bind, modify. rewrite E.
  destruct s. reflexivity.
Qed.

End TempoFacts.
Import TempoFacts.

(** X7.  For every tempo of at least 4 beats per minute [set_tempo] stores
    the tempo and appends one tempo event: the current delta-time, FF 51
    03 and the three big-endian bytes of 60000000 / bpm (rounded down),
    from which that number is read back. *)
Theorem set_tempo_appends_event (bpm0 : Z) (s : MidiTrack) :
  4 <= bpm0 ->
  set_tempo bpm0 s
  = (Ok tt,
     mkMidiTrack
       (track_data s
        ++ delta_time s ++ [255; 81; 3] ++ big_endian_3 (60000000 / bpm0))
       (delta_time s) (delay s) bpm0)
  /\ Forall is_byte (big_endian_3 (60000000 / bpm0))
  /\ big_endian_value (big_endian_3 (60000000 / bpm0)) = 60000000 / bpm0.
Proof.
  intros Hb. split; [|split].
  - now apply set_tempo_ok.
  - unfold big_endian_3, is_byte.
    repeat constructor; apply Z.mod_pos_bound; lia.
  - apply big_endian_3_value. now apply tempo_quotient.
Qed.

Lemma set_tempo_appends_event_witness :
  set_tempo 90 (mkMidiTrack [1; 2] [0] 5 120)
  = (Ok tt, mkMidiTrack [1; 2; 0; 255; 81; 3; 10; 44; 42] [0] 5 90).
Proof.
  exact (proj1 (set_tempo_appends_event 90 (mkMidiTrack [1; 2] [0] 5 120)
                  ltac:(lia))).
Defined.

(** X8.  A tempo below 4 makes [set_tempo] raise ([ZeroDivisionError] for
    0, [TypeError] for 1, 2, 3 and every negative tempo) without touching
    [track_data]; the rejected tempo has already been stored in [bpm]. *)
Theorem set_tempo_low_raises (bpm0 : Z) (s : MidiTrack) :
  bpm0 < 4 ->
  set_tempo bpm0 s
  = (Raise (if bpm0 =? 0 then ZeroDivisionError else TypeError),
     with_bpm s bpm0).
Proof.
  intros Hb. unfold set_tempo, bind at 1, modify at 1.
  destruct (Z.eqb_spec bpm0 0) as [-> | Hz].
  - reflexivity.
  - apply append_track_data_Raise. cbn [bpm with_bpm].
    now apply set_tempo_event_low.
Qed.

Lemma set_tempo_low_raises_witness :
  set_tempo 3 (mkMidiTrack [1; 2] [0] 5 120)
  = (Raise TypeError, mkMidiTrack [1; 2] [0] 5 3).
Proof.
  exact (set_tempo_low_raises 3 (mkMidiTrack [1; 2] [0] 5 120) ltac:(lia)).
Defined.

(** X9.  [MidiTrack(start_bpm)] with a tempo of at least 4 gives an object
    with that tempo, no delay pending, delta-time 00 and a buffer of seven
    bytes, which a reader of the format reads as one tempo meta event
    (type 81) at delta-time 0 with the three bytes of
    60000000 / start_bpm. *)
Theorem init_tempo_event (start_bpm : Z) :
  4 <= start_bpm ->
  init start_bpm
  = (Ok tt,
     mkMidiTrack ([0; 255; 81; 3] ++ big_endian_3 (60000000 / start_bpm))
       [0] 0 start_bpm)
  /\ read_track (track_data (snd (init start_bpm)))
     = Some [Meta 0 81 (big_endian_3 (60000000 / start_bpm))].
Proof.
  intros Hb.
  assert (E : init start_bpm
              = (Ok tt,
                 mkMidiTrack
                   ([0; 255; 81; 3] ++ big_endian_3 (60000000 / start_bpm))
                   [0] 0 start_bpm)).
  { unfold init, bind at 1, modify at 1.
    exact (set_tempo_ok start_bpm _ Hb). }
  split; [exact E|]. rewrite E. reflexivity.
Qed.

Lemma init_tempo_event_witness :
  init 90 = (Ok tt, mkMidiTrack [0; 255; 81; 3; 10; 44; 42] [0] 0 90)
  /\ read_track [0; 255; 81; 3; 10; 44; 42] = Some [Meta 0 81 [10; 44; 42]].
Proof.
  exact (init_tempo_event 90 ltac:(lia)).
Defined.

(** ** Sequences of beats and of calls *)

Module SequenceFacts.
Import Py PyFacts VlqFacts EventFacts ConverterFacts BarFacts FailureFacts.

Lemma for_each_play_Bar_concat (channel : Z) (bars : list Bar) :
  forall s, for_each (play_Bar channel) bars s
            = play_Bar channel (concat bars) s.
Proof.
  induction bars as [|b bars IH]; intros s; [reflexivity|].
  cbn [for_each concat]. unfold play_Bar at 3.
  rewrite for_each_app. fold (play_Bar channel b).
  fold (play_Bar channel (concat bars)).
  unfold bind. destruct (play_Bar channel b s) as [[[]|e] s1];
    [apply IH | reflexivity].
Qed.

Lemma play_Note_bad_channel (channel : Z) (note : Note) (s : MidiTrack) :
  ~ valid_channel channel ->
  play_Note channel note s = (Raise AssertionError, s).
Proof.
  intros Hc. unfold play_Note. apply append_track_data_Raise.
  unfold note_on. apply midi_event_assert. unfold valid_channel in Hc. lia.
Qed.

Lemma stop_Note_bad_channel (channel : Z) (note : Note) (s : MidiTrack) :
  ~ valid_channel channel ->
  stop_Note channel note s = (Raise AssertionError, s).
Proof.
  intros Hc. unfold stop_Note. apply append_track_data_Raise.
  unfold note_off. apply midi_event_assert. unfold valid_channel in Hc. lia.
Qed.

Lemma play_NoteContainer_bad_channel (channel : Z) (notes : NoteContainer)
    (s : MidiTrack) :
  ~ valid_channel channel -> notes <> [] ->
  play_NoteContainer channel notes s = (Raise AssertionError, s).
Proof.
  intros Hc Hne. destruct notes as [|n [|m rest]]; [contradiction| |];
    unfold play_NoteContainer; cbn [length Nat.leb for_each];
    unfold bind; now rewrite play_Note_bad_channel.
Qed.

Lemma stop_NoteContainer_bad_channel (channel : Z) (notes : NoteContainer)
    (s : MidiTrack) :
  ~ valid_channel channel -> notes <> [] ->
  stop_NoteContainer channel notes s = (Raise AssertionError, s).
Proof.
  intros Hc Hne. destruct notes as [|n [|m rest]]; [contradiction| |];
    unfold stop_NoteContainer; cbn [length Nat.leb for_each];
    unfold bind; now rewrite stop_Note_bad_channel.
Qed.

End SequenceFacts.
Import SequenceFacts.

(** X10.  A beat with the note value 0 makes [play_Bar] raise
    [ZeroDivisionError], whether the beat has notes or not and whatever the
    channel is; the object stays as the beats before it left it. *)
Theorem play_Bar_zero_value (channel : Z) (before : Bar) (x : Beat)
    (after : Bar) (s s' : MidiTrack) :
  beat_value x = 0 ->
  play_Bar channel before s = (Ok tt, s') ->
  play_Bar channel (before ++ x :: after) s = (Raise ZeroDivisionError, s').
Proof.
  intros Hx Hbefore. unfold play_Bar in *.
  rewrite for_each_app. unfold bind at 1. rewrite Hbefore.
  cbn [for_each]. unfold bind at 1.
  unfold play_Bar_beat, bind at 1, lift at 1, beat_tick. rewrite Hx.
  reflexivity.
Qed.

Lemma play_Bar_zero_value_witness :
  play_Bar 99 ([mkBeat 0 4 None] ++ mkBeat 1 0 None :: [mkBeat 2 4 None])
    class_attributes
  = (Raise ZeroDivisionError, mkMidiTrack [] [0] 72 120).
Proof.
  exact (play_Bar_zero_value 99 [mkBeat 0 4 None] (mkBeat 1 0 None)
           [mkBeat 2 4 None] class_attributes (mkMidiTrack [] [0] 72 120)
           eq_refl eq_refl).
Defined.

(** X11.  A bar in which every beat is a rest (notes [None] or empty, note
    value not 0) appends nothing and raises nothing, on any channel: it
    adds the ticks of its beats to the delay and leaves the rest of the
    object alone. *)
Theorem play_Bar_rests (channel : Z) (bar : Bar) (s : MidiTrack) :
  Forall (fun x => beat_value x <> 0
                   /\ (beat_notes x = None \/ beat_notes x = Some [])) bar ->
  play_Bar channel bar s = (Ok tt, with_delay s (delay s + bar_ticks bar)).
Proof.
  revert s. induction bar as [|x bar IH]; intros s Hbar.
  - cbn. destruct s. unfold with_delay. cbn. now rewrite Z.add_0_r.
  - inversion Hbar as [|? ? [Hv Hrest] Hbar']; subst.
    rewrite (play_Bar_cons channel x bar s _
               (play_Bar_beat_rest channel x s Hv Hrest)).
    rewrite IH by assumption.
    destruct s. unfold with_delay. cbn [delay track_data delta_time bpm].
    cbn [bar_ticks fold_right]. fold (bar_ticks bar).
    now rewrite Z.add_assoc.
Qed.

Lemma play_Bar_rests_witness :
  play_Bar 99 [mkBeat 0 4 None; mkBeat 1 8 (Some [])]
    (mkMidiTrack [1] [5] 10 120)
  = (Ok tt, mkMidiTrack [1] [5] 118 120).
Proof.
  exact (play_Bar_rests 99 [mkBeat 0 4 None; mkBeat 1 8 (Some [])]
           (mkMidiTrack [1] [5] 10 120)
           ltac:(repeat (constructor;
                         [cbn; split; [lia | tauto]|]); constructor)).
Defined.

(** X12.  Bar lines leave no trace: converting a bar cut in two, one part
    after the other, is converting the whole bar, and [play_Track] gives
    what it gives on the track whose bars are joined into a single bar;
    this holds for the outcome and the object alike, also when a beat
    raises. *)
Theorem bar_lines_leave_no_trace (channel : Z) (bar1 bar2 : Bar)
    (track : Track) (s : MidiTrack) :
  play_Bar channel (bar1 ++ bar2) s
  = (play_Bar channel bar1 >> play_Bar channel bar2) s
  /\ play_Track channel track s
     = play_Track channel
         (mkTrack (instrument_nr track) [concat (track_bars track)]) s.
Proof.
  split; [apply for_each_app|].
  unfold play_Track. cbn [instrument_nr track_bars].
  unfold bind, modify.
  destruct (match instrument_nr track with
            | Some nr => set_instrument channel nr 1
            | None => ret tt
            end (with_delay s 0)) as [[[]|e] s1]; [|reflexivity].
  rewrite for_each_play_Bar_concat.
  cbn [for_each]. unfold bind, ret.
  now destruct (play_Bar channel (concat (track_bars track)) s1) as [[[]|e] s2].
Qed.

(** X13.  [play_Note] does not use up the delta-time: after any sequence
    of [play_Note] calls (valid channel, notes that fit a byte) the buffer
    has grown by one note-on per call, each after the same delta-time that
    was pending before the first call, and that delta-time is still
    pending. *)
Theorem play_Note_keeps_delta_time (channel : Z) (notes : list Note)
    (s : MidiTrack) :
  valid_channel channel -> Forall valid_note notes ->
  run_all (map (Do_play_Note channel) notes) s
  = with_track_data s
      (track_data s
       ++ concat (map (fun n => delta_time s ++ note_on_bytes channel n)
                      notes)).
Proof.
  intros Hc. revert s. induction notes as [|n notes IH]; intros s Hn.
  - cbn. now rewrite with_track_data_same.
  - inversion Hn as [|? ? Hn1 Hrest]; subst.
    cbn [map run_all run]. rewrite play_Note_ok by assumption.
    cbn [snd]. rewrite IH by assumption.
    destruct s. unfold with_track_data. cbn. now rewrite <- !app_assoc.
Qed.

Lemma play_Note_keeps_delta_time_witness :
  run_all [Do_play_Note 0 (mkNote 48 None); Do_play_Note 0 (mkNote 52 None)]
    (mkMidiTrack [] [72] 0 120)
  = mkMidiTrack [72; 144; 60; 64; 72; 144; 64; 64] [72] 0 120.
Proof.
  exact (play_Note_keeps_delta_time 0 [mkNote 48 None; mkNote 52 None]
           (mkMidiTrack [] [72] 0 120) ltac:(valid_here)
           ltac:(repeat (constructor; [valid_here|]); constructor)).
Defined.

(** X14.  With a channel outside 0..15, [play_NoteContainer] and
    [stop_NoteContainer] raise [AssertionError] on every container that
    has a note and leave the object untouched; on the empty container they
    raise nothing, whatever the channel. *)
Theorem note_container_bad_channel (channel : Z) (notes : NoteContainer)
    (s : MidiTrack) :
  ~ valid_channel channel -> notes <> [] ->
  play_NoteContainer channel notes s = (Raise AssertionError, s)
  /\ stop_NoteContainer channel notes s = (Raise AssertionError, s)
  /\ play_NoteContainer channel [] s = (Ok tt, s)
  /\ stop_NoteContainer channel [] s = (Ok tt, s).
Proof.
  intros Hc Hne.
  split; [now apply play_NoteContainer_bad_channel|].
  split; [now apply stop_NoteContainer_bad_channel|].
  split; reflexivity.
Qed.

Lemma note_container_bad_channel_witness :
  play_NoteContainer 16 [mkNote 48 None; mkNote 52 None]
    (mkMidiTrack [1] [5] 10 120)
  = (Raise AssertionError, mkMidiTrack [1] [5] 10 120).
Proof.
  exact (proj1 (note_container_bad_channel 16
                  [mkNote 48 None; mkNote 52 None]
                  (mkMidiTrack [1] [5] 10 120)
                  ltac:(unfold valid_channel; lia) ltac:(discriminate))).
Defined.

(** X15.  With a channel outside 0..15, a beat with notes makes [play_Bar]
    raise [AssertionError] with nothing appended, but not before the
    pending delay has been used up: the delay is 0 afterwards and the
    delta-time holds its encoding. *)
Theorem play_Bar_bad_channel_loses_delay (channel pos value : Z)
    (notes : NoteContainer) (bar : Bar) (s : MidiTrack) :
  ~ valid_channel channel -> value <> 0 -> notes <> [] ->
  delay s <= 2097151 ->
  play_Bar channel (mkBeat pos value (Some notes) :: bar) s
  = (Raise AssertionError,
     mkMidiTrack (track_data s) (encode_vlq (delay s)) 0 (bpm s)).
Proof.
  intros Hc Hv Hne _. unfold play_Bar. cbn [for_each].
  unfold bind at 1. unfold play_Bar_beat, bind at 1, lift at 1.
  cbn [beat_value beat_notes]. rewrite beat_tick_ok by assumption.
  destruct notes as [|n notes]; [contradiction|].
  cbn [length Nat.eqb].
  unfold bind at 1. unfold bind at 1, lift at 1.
  rewrite set_deltatime_int.
  unfold bind at 1, modify at 1.
  unfold bind at 1.
  rewrite play_NoteContainer_bad_channel by (assumption || discriminate).
  reflexivity.
Qed.

Lemma play_Bar_bad_channel_loses_delay_witness :
  play_Bar 16 [mkBeat 0 4 (Some [mkNote 48 None])]
    (mkMidiTrack [1] [5] 300 120)
  = (Raise AssertionError, mkMidiTrack [1] [130; 44] 0 120).
Proof.
  exact (play_Bar_bad_channel_loses_delay 16 0 4 [mkNote 48 None] []
           (mkMidiTrack [1] [5] 300 120)
           ltac:(unfold valid_channel; lia) ltac:(lia) ltac:(discriminate)
           ltac:(simpl; lia)).
Defined.

(** ** Reading the buffer back *)

Module ReaderFacts.
Import Py PyFacts VlqFacts EventFacts ConverterFacts BarFacts MoreFacts.

Lemma option_map_cons_app {A} (e : A) (l : list A) (x : option (list A)) :
  option_map (cons e) (option_map (app l) x) = option_map (app (e :: l)) x.
Proof. now destruct x. Qed.

Lemma option_map_app_app {A} (l1 l2 : list A) (x : option (list A)) :
  option_map (app l1) (option_map (app l2) x) = option_map (app (l1 ++ l2)) x.
Proof. destruct x; cbn; [now rewrite app_assoc | reflexivity]. Qed.

Lemma option_map_app_nil {A} (x : option (list A)) :
  option_map (app []) x = x.
Proof. now destruct x. Qed.

(** The reader takes the encoding of a delta-time for that delta-time. *)
Lemma read_delta (d : Z) (tail : bytes) :
  0 <= d <= 2097151 ->
  read_from AtEvent (encode_vlq d ++ tail) = read_from (AtStatus d) tail.
Proof.
  intros Hd.
  assert (Hlow : 0 <= d mod 128 < 128) by (apply Z.mod_pos_bound; lia).
  destruct (Z.lt_ge_cases d 128) as [H1|H1];
    [|destruct (Z.lt_ge_cases d 16384) as [H2|H2]].
  - rewrite encode_vlq_1 by lia. cbn [app read_from].
    destruct (flag_clear d ltac:(lia)) as [-> ->]. reflexivity.
  - rewrite encode_vlq_2 by lia. cbn [app read_from].
    assert (Hq : 0 <= d / 128 < 128)
      by (split; [apply Z.div_pos; lia | apply Z.div_lt_upper_bound; lia]).
    destruct (flag_set (d / 128) Hq) as [-> ->].
    destruct (flag_clear (d mod 128) Hlow) as [-> ->].
    f_equal. f_equal. pose proof (Z.div_mod d 128 ltac:(lia)). lia.
  - rewrite encode_vlq_3 by lia. cbn [app read_from].
    assert (Hq : 0 <= d / 16384 < 128)
      by (split; [apply Z.div_pos; lia | apply Z.div_lt_upper_bound; lia]).
    assert (Hmid : 0 <= (d / 128) mod 128 < 128)
      by (apply Z.mod_pos_bound; lia).
    destruct (flag_set (d / 16384) Hq) as [-> ->].
    destruct (flag_set ((d / 128) mod 128) Hmid) as [-> ->].
    destruct (flag_clear (d mod 128) Hlow) as [-> ->].
    f_equal. f_equal.
    pose proof (Z.div_mod d 128 ltac:(lia)) as E1.
    pose proof (Z.div_mod (d / 128) 128 ltac:(lia)) as E2.
    rewrite Z.div_div in E2 by lia. change (128 * 128) with 16384 in E2.
    lia.
Qed.

Lemma read_channel2 (delta status p v : Z) (tail : bytes) :
  two_data_status status -> 0 <= p < 128 -> 0 <= v < 128 ->
  read_from (AtStatus delta) (status :: p :: v :: tail)
  = option_map (cons (Channel delta status [p; v])) (read_from AtEvent tail).
Proof.
  intros [Hlen Hne] Hp Hv. cbn [read_from]. rewrite Hne, Hlen.
  destruct (flag_clear p Hp) as [-> _].
  destruct (flag_clear v Hv) as [-> _]. reflexivity.
Qed.

Lemma note_status (event_type channel : Z) :
  event_type = NOTE_ON \/ event_type = NOTE_OFF -> valid_channel channel ->
  two_data_status (status_byte event_type channel).
Proof.
  intros He Hc. unfold valid_channel in Hc.
  pose (f := fun c =>
               match channel_data_length (status_byte 9 c),
                     channel_data_length (status_byte 8 c) with
               | Some 2%nat, Some 2%nat =>
                   negb (status_byte 9 c =? 255)
                   && negb (status_byte 8 c =? 255)
               | _, _ => false
               end).
  assert (H : f channel = true)
    by (apply (forallb_range f 16); [reflexivity | exact Hc]).
  unfold f in H. unfold two_data_status.
  destruct He as [-> | ->]; unfold NOTE_ON, NOTE_OFF;
    destruct (channel_data_length (status_byte 9 channel))
      as [[|[|[|?]]]|]; try discriminate;
    destruct (channel_data_length (status_byte 8 channel))
      as [[|[|[|?]]]|]; try discriminate;
    apply andb_true_iff in H; destruct H as [H9 H8];
    apply negb_true_iff in H9, H8; now split.
Qed.

(** One event of a note group, read back. *)
Lemma read_note (d status : Z) (note : Note) (tail : bytes) :
  0 <= d <= 2097151 -> two_data_status status -> midi_note note ->
  read_from AtEvent
    (encode_vlq d ++ [status; note_int note + 12; note_velocity note] ++ tail)
  = option_map
      (cons (Channel d status [note_int note + 12; note_velocity note]))
      (read_from AtEvent tail).
Proof.
  intros Hd Hs [Hp Hv]. rewrite read_delta by assumption.
  cbn [app]. now apply read_channel2.
Qed.

Lemma read_chord (status d : Z) (notes : NoteContainer) (tail : bytes) :
  0 <= d <= 2097151 -> two_data_status status -> Forall midi_note notes ->
  read_from AtEvent
    (chord_bytes
       (fun n => [status; note_int n + 12; note_velocity n])
       (encode_vlq d) notes ++ tail)
  = option_map (app (chord_events status d notes)) (read_from AtEvent tail).
Proof.
  intros Hd Hs Hn. destruct notes as [|n rest].
  - cbn [chord_bytes chord_events app]. now rewrite option_map_app_nil.
  - inversion Hn as [|? ? Hn1 Hrest]; subst.
    cbn [chord_bytes chord_events].
    rewrite <- !app_assoc. rewrite read_note by assumption.
    rewrite <- option_map_cons_app. f_equal.
    clear Hn Hn1. induction rest as [|m rest IH].
    + cbn [map concat app]. now rewrite option_map_app_nil.
    + inversion Hrest as [|? ? Hm Hrest']; subst.
      cbn [map concat]. rewrite <- app_assoc.
      change (0 :: [status; note_int m + 12; note_velocity m])
        with ([0] ++ [status; note_int m + 12; note_velocity m]).
      rewrite <- (encode_vlq_1 0) by lia.
      rewrite <- !app_assoc.
      rewrite read_note by (assumption || lia).
      rewrite IH by assumption.
      now rewrite option_map_cons_app.
Qed.

Lemma midi_note_valid (note : Note) : midi_note note -> valid_note note.
Proof. unfold midi_note, valid_note, is_byte. lia. Qed.

Lemma midi_notes_valid (notes : list Note) :
  Forall midi_note notes -> Forall valid_note notes.
Proof. apply Forall_impl, midi_note_valid. Qed.

Lemma total_delta_app (l1 l2 : list track_event) :
  total_delta (l1 ++ l2) = total_delta l1 + total_delta l2.
Proof.
  unfold total_delta.
  induction l1 as [|e l1 IH]; cbn [app fold_right]; [reflexivity|].
  rewrite IH. lia.
Qed.

Lemma total_delta_chord (status d : Z) (notes : NoteContainer) :
  notes <> [] -> total_delta (chord_events status d notes) = d.
Proof.
  intros Hne. destruct notes as [|n rest]; [contradiction|].
  unfold total_delta. cbn [chord_events fold_right event_delta].
  assert (H : fold_right (fun e acc => event_delta e + acc) 0
                (map (fun m => Channel 0 status
                                 [note_int m + 12; note_velocity m]) rest)
              = 0).
  { clear Hne. induction rest as [|m rest IH]; [reflexivity|].
    cbn [map fold_right event_delta]. rewrite IH. reflexivity. }
  rewrite H. lia.
Qed.

Lemma bar_ticks_nonneg (bar : Bar) :
  Forall midi_beat bar -> 0 <= bar_ticks bar.
Proof.
  unfold bar_ticks.
  induction 1 as [|x bar [Hv _] _ IH]; cbn [fold_right]; [lia|].
  pose proof (tick_bounds (beat_value x) Hv). lia.
Qed.

(** What [play_Bar] appends for a bar of MIDI notes, how it reads and what
    time it spans. *)
Lemma play_Bar_read (channel : Z) (bar : Bar) : forall (s : MidiTrack),
  valid_channel channel -> Forall midi_beat bar ->
  0 <= delay s -> delay s + bar_ticks bar <= 2097151 ->
  exists out dt,
    play_Bar channel bar s
    = (Ok tt,
       mkMidiTrack (track_data s ++ out) dt
         (snd (bar_events channel (delay s) bar)) (bpm s))
    /\ (bar = [] -> dt = delta_time s)
    /\ (forall tail,
          read_from AtEvent (out ++ tail)
          = option_map (app (fst (bar_events channel (delay s) bar)))
                       (read_from AtEvent tail))
    /\ total_delta (fst (bar_events channel (delay s) bar))
       + snd (bar_events channel (delay s) bar)
       = delay s + bar_ticks bar
    /\ 0 <= snd (bar_events channel (delay s) bar).
Proof.
  induction bar as [|x bar IH]; intros s Hc Hbar Hd Hsum.
  - exists [], (delta_time s). cbn [bar_events fst snd bar_ticks fold_right].
    split; [cbn; destruct s; cbn; now rewrite app_nil_r|].
    split; [reflexivity|].
    split; [intros tail; cbn [app]; now rewrite option_map_app_nil|].
    cbn. lia.
  - inversion Hbar as [|? ? [Hv Hnotes] Hbar']; subst.
    pose proof (tick_bounds (beat_value x) Hv) as Htick.
    pose proof (bar_ticks_nonneg bar Hbar') as Hnn.
    change (bar_ticks (x :: bar))
      with (round_div 288 (beat_value x) + bar_ticks bar) in *.
    assert (Hrest_case :
      beat_notes x = None \/ beat_notes x = Some [] ->
      exists out dt,
        play_Bar channel (x :: bar) s
        = (Ok tt,
           mkMidiTrack (track_data s ++ out) dt
             (snd (bar_events channel (delay s) (x :: bar))) (bpm s))
        /\ (x :: bar = [] -> dt = delta_time s)
        /\ (forall tail,
              read_from AtEvent (out ++ tail)
              = option_map
                  (app (fst (bar_events channel (delay s) (x :: bar))))
                  (read_from AtEvent tail))
        /\ total_delta (fst (bar_events channel (delay s) (x :: bar)))
           + snd (bar_events channel (delay s) (x :: bar))
           = delay s + (round_div 288 (beat_value x) + bar_ticks bar)
        /\ 0 <= snd (bar_events channel (delay s) (x :: bar))).
    { intros Hr.
      assert (Hev : bar_events channel (delay s) (x :: bar)
                    = bar_events channel
                        (delay s + round_div 288 (beat_value x)) bar)
        by (cbn [bar_events]; destruct Hr as [-> | ->]; reflexivity).
      rewrite Hev.
      rewrite (play_Bar_cons channel x bar s _
                 (play_Bar_beat_rest channel x s ltac:(lia) Hr)).
      destruct (IH (with_delay s (delay s + round_div 288 (beat_value x)))
                  Hc Hbar' ltac:(cbn; lia) ltac:(cbn; lia))
        as [out [dt [Hplay [_ [Hread [Htime Hpos]]]]]].
      cbn [with_delay track_data delta_time delay bpm] in *.
      exists out, dt.
      split; [exact Hplay|]. split; [discriminate|].
      split; [exact Hread|]. split; [lia | exact Hpos]. }
    destruct (beat_notes x) as [[|n notes]|] eqn:Hx;
      [apply Hrest_case; now right | | apply Hrest_case; now left].
    clear Hrest_case.
    assert (Hvalid : Forall valid_note (n :: notes))
      by (now apply midi_notes_valid).
    rewrite (play_Bar_cons channel x bar s _
               (play_Bar_beat_sounding channel x (n :: notes) s Hc
                  ltac:(lia) Hx ltac:(discriminate) Hvalid)).
    destruct (IH (after_sounding_beat s channel
                    (round_div 288 (beat_value x)) (n :: notes))
                Hc Hbar' ltac:(cbn; lia) ltac:(cbn; lia))
      as [out [dt [Hplay [_ [Hread [Htime Hpos]]]]]].
    cbn [after_sounding_beat track_data delta_time delay bpm] in *.
    assert (Hev : bar_events channel (delay s) (x :: bar)
                  = (chord_events (status_byte NOTE_ON channel) (delay s)
                       (n :: notes)
                     ++ chord_events (status_byte NOTE_OFF channel)
                          (round_div 288 (beat_value x)) (n :: notes)
                     ++ fst (bar_events channel 0 bar),
                     snd (bar_events channel 0 bar))).
    { cbn [bar_events]. rewrite Hx.
      now destruct (bar_events channel 0 bar). }
    rewrite Hev. cbn [fst snd].
    exists (chord_bytes (note_on_bytes channel) (encode_vlq (delay s))
              (n :: notes)
            ++ chord_bytes (note_off_bytes channel)
                 (encode_vlq (round_div 288 (beat_value x))) (n :: notes)
            ++ out), dt.
    split.
    { rewrite Hplay. rewrite <- !app_assoc. reflexivity. }
    split; [discriminate|].
    split.
    + intros tail. rewrite <- !app_assoc.
      unfold note_on_bytes, note_off_bytes.
      rewrite read_chord;
        [|lia | apply note_status; [now left | assumption] | assumption].
      rewrite read_chord;
        [|lia | apply note_status; [now right | assumption] | assumption].
      rewrite Hread. rewrite !option_map_app_app.
      now rewrite <- ?app_assoc.
    + split; [|exact Hpos].
      rewrite !total_delta_app, !total_delta_chord by discriminate.
      lia.
Qed.

End ReaderFacts.
Import ReaderFacts.

(** X16.  What [play_Bar] appends reads back as the events of the bar.
    For a valid channel, beats with positive note values and notes whose
    pitch + 12 and velocity are at most 127, and no more than 2097151
    ticks between the pending delay and the bar, [play_Bar] succeeds, and
    a reader of the MIDI format gets from the appended bytes, in order,
    for every beat with notes a note-on per note (the first after the
    rest accumulated before the beat, the others after 0) and a note-off
    per note (the first after the beat's ticks, the others after 0); the
    delay left is the rest after the last sounding beat. *)
Theorem play_Bar_reads_back (channel : Z) (bar : Bar) (s : MidiTrack) :
  valid_channel channel -> Forall midi_beat bar ->
  0 <= delay s -> delay s + bar_ticks bar <= 2097151 ->
  exists out dt,
    play_Bar channel bar s
    = (Ok tt,
       mkMidiTrack (track_data s ++ out) dt
         (snd (bar_events channel (delay s) bar)) (bpm s))
    /\ read_track out = Some (fst (bar_events channel (delay s) bar)).
Proof.
  intros Hc Hbar Hd Hsum.
  destruct (play_Bar_read channel bar s Hc Hbar Hd Hsum)
    as [out [dt [Hplay [_ [Hread _]]]]].
  exists out, dt. split; [exact Hplay|].
  unfold read_track. rewrite <- (app_nil_r out), Hread.
  cbn [read_from option_map]. now rewrite app_nil_r.
Qed.

Lemma play_Bar_reads_back_witness :
  exists out dt,
    play_Bar 1 [mkBeat 0 4 None;
                mkBeat 1 8 (Some [mkNote 48 None; mkNote 52 (Some 100)])]
      (mkMidiTrack [] [0] 0 120)
    = (Ok tt, mkMidiTrack ([] ++ out) dt 0 120)
    /\ read_track out
       = Some [Channel 72 145 [60; 64]; Channel 0 145 [64; 100];
               Channel 36 129 [60; 64]; Channel 0 129 [64; 100]].
Proof.
  exact (play_Bar_reads_back 1
           [mkBeat 0 4 None;
            mkBeat 1 8 (Some [mkNote 48 None; mkNote 52 (Some 100)])]
           (mkMidiTrack [] [0] 0 120)
           ltac:(valid_here)
           ltac:(repeat constructor; cbn; unfold note_velocity; cbn; lia)
           ltac:(simpl; lia) ltac:(vm_compute; discriminate)).
Defined.

(** X17.  [play_Bar] keeps time: under the conditions of X16, the
    delta-times of the events read back from the appended bytes, together
    with the delay left pending, add up to the delay that was pending
    before plus the ticks of all the beats of the bar. *)
Theorem play_Bar_keeps_time (channel : Z) (bar : Bar) (s : MidiTrack) :
  valid_channel channel -> Forall midi_beat bar ->
  0 <= delay s -> delay s + bar_ticks bar <= 2097151 ->
  exists out evs s',
    play_Bar channel bar s = (Ok tt, s')
    /\ track_data s' = track_data s ++ out
    /\ read_track out = Some evs
    /\ total_delta evs + delay s' = delay s + bar_ticks bar.
Proof.
  intros Hc Hbar Hd Hsum.
  destruct (play_Bar_read channel bar s Hc Hbar Hd Hsum)
    as [out [dt [Hplay [_ [Hread [Htime _]]]]]].
  exists out, (fst (bar_events channel (delay s) bar)).
  eexists. split; [exact Hplay|]. cbn [track_data delay].
  split; [reflexivity|]. split; [|exact Htime].
  unfold read_track. rewrite <- (app_nil_r out), Hread.
  cbn [read_from option_map]. now rewrite app_nil_r.
Qed.

Lemma play_Bar_keeps_time_witness :
  exists out evs s',
    play_Bar 1 [mkBeat 0 4 None; mkBeat 1 8 (Some [mkNote 48 None]);
                mkBeat 2 8 None]
      (mkMidiTrack [] [0] 10 120) = (Ok tt, s')
    /\ track_data s' = [] ++ out
    /\ read_track out = Some evs
    /\ total_delta evs + delay s' = 10 + 144.
Proof.
  exact (play_Bar_keeps_time 1
           [mkBeat 0 4 None; mkBeat 1 8 (Some [mkNote 48 None]);
            mkBeat 2 8 None]
           (mkMidiTrack [] [0] 10 120)
           ltac:(valid_here)
           ltac:(repeat constructor; cbn; unfold note_velocity; cbn; lia)
           ltac:(simpl; lia) ltac:(vm_compute; discriminate)).
Defined.

(** X18.  A whole track reads back.  For a new encoder with a tempo of at
    least 4, a valid channel and a track without a program number whose
    beats have positive note values and MIDI notes and span at most
    2097151 ticks, [play_Track] succeeds, and the body of the chunk
    ([track_data] followed by the end-of-track bytes) reads as the tempo
    meta event, then the events of all the bars as one sequence of beats
    with no rest pending at the start, then the end-of-track meta event
    (type 47, no data) at delta-time 0: a rest at the end of the track is
    not written. *)
Theorem track_reads_back (start_bpm channel : Z) (track : Track) :
  4 <= start_bpm -> valid_channel channel ->
  instrument_nr track = None ->
  Forall midi_beat (concat (track_bars track)) ->
  bar_ticks (concat (track_bars track)) <= 2097151 ->
  exists s',
    play_Track channel track (snd (init start_bpm)) = (Ok tt, s')
    /\ delay s' = snd (bar_events channel 0 (concat (track_bars track)))
    /\ read_track (track_data s' ++ end_of_track)
       = Some (Meta 0 81 (big_endian_3 (60000000 / start_bpm))
               :: fst (bar_events channel 0 (concat (track_bars track)))
               ++ [Meta 0 47 []]).
Proof.
  intros Hb Hc Hi Hbar Hsum.
  assert (Einit : snd (init start_bpm)
                  = mkMidiTrack
                      ([0; 255; 81; 3]
                       ++ big_endian_3 (60000000 / start_bpm))
                      [0] 0 start_bpm).
  { unfold init, bind at 1, modify at 1.
    now rewrite (set_tempo_ok start_bpm _ Hb). }
  rewrite Einit. set (s0 := mkMidiTrack _ [0] 0 start_bpm).
  assert (Eplay : play_Track channel track s0
                  = play_Bar channel (concat (track_bars track)) s0).
  { unfold play_Track. rewrite Hi. unfold bind, modify, ret.
    now rewrite for_each_play_Bar_concat. }
  destruct (play_Bar_read channel (concat (track_bars track)) s0 Hc Hbar
              ltac:(cbn; lia) ltac:(cbn; lia))
    as [out [dt [Hplay [_ [Hread _]]]]].
  rewrite Eplay, Hplay. eexists. split; [reflexivity|].
  cbn [track_data delay]. split; [reflexivity|].
  unfold read_track, s0. cbn [track_data delay].
  rewrite <- !app_assoc. unfold big_endian_3 at 1. cbn [app read_from].
  change (Z.testbit 0 7) with false. change (Z.land 0 127) with 0.
  change (255 =? 255) with true. change (Z.testbit 3 7) with false.
  change (Z.to_nat 3) with 3%nat. cbn [option_map app].
  rewrite Hread. unfold end_of_track.
  change (read_from AtEvent [0; 255; 47; 0]) with (Some [Meta 0 47 []]).
  reflexivity.
Qed.

Lemma track_reads_back_witness :
  exists s',
    play_Track 0
      (mkTrack None [[mkBeat 0 4 (Some [mkNote 48 None])];
                     [mkBeat 0 4 None]])
      (snd (init 120)) = (Ok tt, s')
    /\ delay s' = 72
    /\ read_track (track_data s' ++ end_of_track)
       = Some [Meta 0 81 [7; 161; 32];
               Channel 0 144 [60; 64]; Channel 72 128 [60; 64];
               Meta 0 47 []].
Proof.
  exact (track_reads_back 120 0
           (mkTrack None [[mkBeat 0 4 (Some [mkNote 48 None])];
                          [mkBeat 0 4 None]])
           ltac:(lia) ltac:(valid_here) eq_refl
           ltac:(repeat constructor; cbn; unfold note_velocity; cbn; lia)
           ltac:(vm_compute; discriminate)).
Defined.

(** X19.  Data bytes are not held to the MIDI range: a note whose pitch +
    12 or velocity is from 128 to 255 (while both fit a byte) is appended
    by [play_Note] without an error, and the bytes appended are no event a
    reader of the format accepts (a data byte has its high bit set). *)
Theorem play_Note_beyond_midi_range (channel d : Z) (note : Note)
    (s : MidiTrack) :
  valid_channel channel -> valid_note note ->
  128 <= note_int note + 12 \/ 128 <= note_velocity note ->
  0 <= d <= 2097151 -> delta_time s = encode_vlq d ->
  play_Note channel note s
  = (Ok tt,
     with_track_data s
       (track_data s ++ encode_vlq d ++ note_on_bytes channel note))
  /\ read_track (encode_vlq d ++ note_on_bytes channel note) = None.
Proof.
  intros Hc Hn Hbig Hd Hdt. split.
  - rewrite play_Note_ok by assumption. now rewrite Hdt.
  - unfold read_track. rewrite read_delta by assumption.
    unfold note_on_bytes. cbn [read_from].
    destruct (note_status NOTE_ON channel (or_introl eq_refl) Hc)
      as [Hlen Hne].
    rewrite Hne, Hlen.
    destruct Hn as [Hp Hv]. unfold is_byte in Hp, Hv.
    assert (Hhigh : forall b, 128 <= b < 256 -> Z.testbit b 7 = true).
    { intros b Hb. replace b with ((b - 128) + 128) by lia.
      apply flag_set. lia. }
    destruct (Z.lt_ge_cases (note_int note + 12) 128) as [Hsmall | Hlarge].
    + destruct (flag_clear (note_int note + 12) ltac:(lia)) as [-> _].
      now rewrite Hhigh by lia.
    + now rewrite Hhigh by lia.
Qed.

Lemma play_Note_beyond_midi_range_witness :
  play_Note 0 (mkNote 48 (Some 200)) (mkMidiTrack [] [72] 0 120)
  = (Ok tt, mkMidiTrack [72; 144; 60; 200] [72] 0 120)
  /\ read_track [72; 144; 60; 200] = None.
Proof.
  exact (play_Note_beyond_midi_range 0 72 (mkNote 48 (Some 200))
           (mkMidiTrack [] [72] 0 120)
           ltac:(valid_here) ltac:(valid_here)
           ltac:(right; unfold note_velocity; cbn; lia)
           ltac:(lia) eq_refl).
Defined.

(** X20.  [reset] followed by [set_tempo] (tempo at least 4) gives the
    buffer, the delta-time and the tempo of a newly constructed encoder
    with that tempo, whatever the object held before; only the delay is
    carried over. *)
Theorem reset_then_set_tempo (bpm0 : Z) (s : MidiTrack) :
  4 <= bpm0 ->
  (reset >> set_tempo bpm0) s
  = (Ok tt, with_delay (snd (init bpm0)) (delay s))
  /\ fst (init bpm0) = Ok tt.
Proof.
  intros Hb.
  assert (Einit : init bpm0
                  = (Ok tt,
                     mkMidiTrack
                       ([0; 255; 81; 3] ++ big_endian_3 (60000000 / bpm0))
                       [0] 0 bpm0)).
  { unfold init, bind at 1, modify at 1.
    now rewrite (set_tempo_ok bpm0 _ Hb). }
  rewrite Einit. split; [|reflexivity].
  unfold bind at 1. unfold reset, bind at 1, modify.
  rewrite (set_tempo_ok bpm0 _ Hb). reflexivity.
Qed.

Lemma reset_then_set_tempo_witness :
  (reset >> set_tempo 120) (mkMidiTrack [1; 2; 3] [72] 36 90)
  = (Ok tt, mkMidiTrack [0; 255; 81; 3; 7; 161; 32] [0] 36 120).
Proof.
  exact (proj1 (reset_then_set_tempo 120 (mkMidiTrack [1; 2; 3] [72] 36 90)
                  ltac:(lia))).
Defined.
